(** * The standings scoring engine of the survivor draft

    A shallow embedding of [computeStandings] (src/worker/worker.js,
    lines 199-315) and the properties its specification states about it.

    Modelling conventions.
    - JavaScript numbers are the integers of the data model (contestant
      count, placements, occurrence counts, points per occurrence): [Z].
      [Infinity], the initial value of [worstPts], is [None] in an
      [option Z].
    - [undefined] and [null] are [None]: a name that [contestantMap.get]
      does not find, a contestant without [placement], without [bonuses],
      a submission without [alternates].
    - The [Map] built from the roster and the [scoring] object are finite
      maps with string keys ([gmap]); a bonus tally is the sequence
      [Object.entries] enumerates.  The engine is modelled on tallies
      whose keys find in [season.scoring] an own key or nothing;
      [bonusStepJS] is the bonus loop on any key, with what a key finds in
      [Object.prototype].
    - Array indices are [nat] where the array is traversed, and [Z] where
      the source stores them in a variable that can hold [-1].
    - [Array.prototype.sort] is specified (ECMAScript 2019, 22.1.3.27) to
      be stable and to order by a consistent comparator; it is modelled by
      a stable insertion sort over that comparator. *)

From stdpp Require Import gmap strings list fin_maps.
From Stdlib Require Import ZArith Lia Sorted Permutation DecimalString.

Local Open Scope Z_scope.

(** ** Data model *)

Module Season.
Record t := mk {
  contestantCount : Z;
  scoring : gmap string Z
}.
End Season.

Module Contestant.
Record t := mk {
  name : string;
  placement : option Z;
  bonuses : option (list (string * Z))
}.
End Contestant.

Module Player.
Record t := mk {
  name : string;
  picks : list string;
  alternates : option (list string)
}.
End Player.

(** An entry of [finalPicks]. *)
Module Pick.
Record t := mk {
  contestant : option Contestant.t;
  placement : Z;
  bonus : Z;
  total : Z;
  swappedOut : bool
}.
End Pick.

(** An entry of [activeAlts]. *)
Module Alt.
Record t := mk {
  contestant : option Contestant.t;
  placement : Z;
  bonus : Z;
  total : Z;
  swappedIn : bool
}.
End Alt.

(** The object returned for one player. *)
Module Standing.
Record t := mk {
  name : string;
  picks : list Pick.t;
  alternates : list Alt.t;
  winnerBonus : Z;
  runnerUpBonus : Z;
  total : Z
}.
End Standing.

(** ** The roster map

    [for (const c of contestants) contestantMap.set(c.name, c)] *)

Definition contestantMap (contestants : list Contestant.t)
  : gmap string Contestant.t :=
  fold_left (fun m c => <[Contestant.name c := c]> m) contestants ∅.

(** [player.picks.map(name => contestantMap.get(name))] *)
Definition pickContestants (cmap : gmap string Contestant.t)
    (player : Player.t) : list (option Contestant.t) :=
  map (fun nm => cmap !! nm) (Player.picks player).

(** [(player.alternates || []).map(name => contestantMap.get(name))] *)
Definition altContestants (cmap : gmap string Contestant.t)
    (player : Player.t) : list (option Contestant.t) :=
  map (fun nm => cmap !! nm) (default [] (Player.alternates player)).

(** ** Points calculator *)

(** [if (!c || c.placement == null) return 0;
     return contestantCount + 1 - c.placement;] *)
Definition placementPts (season : Season.t) (c : option Contestant.t) : Z :=
  match c with
  | None => 0
  | Some c' =>
      match Contestant.placement c' with
      | None => 0
      | Some p => Season.contestantCount season + 1 - p
      end
  end.

(** One turn of the loop over [Object.entries(c.bonuses)]:
    [if (scoring[key]) total += count * scoring[key];]
    for a key that finds in [season.scoring] an own key or nothing; what
    the turn does on any key is [bonusStepJS] below, which agrees with
    this one on such keys ([bonusStepJS_plain]). *)
Definition bonusStep (season : Season.t) (total : Z) (entry : string * Z) : Z :=
  let '(key, count) := entry in
  match Season.scoring season !! key with
  | None => total
  | Some v => if v =? 0 then total else total + count * v
  end.

Definition bonusPts (season : Season.t) (c : option Contestant.t) : Z :=
  match c with
  | None => 0
  | Some c' =>
      match Contestant.bonuses c' with
      | None => 0
      | Some entries => fold_left (bonusStep season) entries 0
      end
  end.

Definition totalPts (season : Season.t) (c : option Contestant.t) : Z :=
  placementPts season c + bonusPts season c.

(** *** The bonus loop on any key

    [scoring[key]] on the plain object [season.scoring] finds an own key
    and otherwise what [Object.prototype] has under that name: a function,
    or the prototype itself under [__proto__].  Such a value is truthy and
    is not a number, so [count * scoring[key]] is [NaN], and the total is
    [NaN] from then on. *)

Inductive Num : Type :=
| Int (z : Z)
| NaN.

Definition objectPrototypeNames : list string :=
  ["constructor"; "hasOwnProperty"; "isPrototypeOf"; "propertyIsEnumerable";
   "toLocaleString"; "toString"; "valueOf"; "__proto__";
   "__defineGetter__"; "__defineSetter__"; "__lookupGetter__";
   "__lookupSetter__"]%string.

Inductive Member : Type :=
| OwnNumber (v : Z)
| Inherited
| Undefined.

(** [scoring[key]] *)
Definition member (scoring : gmap string Z) (key : string) : Member :=
  match scoring !! key with
  | Some v => OwnNumber v
  | None => if bool_decide (key ∈ objectPrototypeNames) then Inherited
            else Undefined
  end.

Definition numAdd (a b : Num) : Num :=
  match a, b with
  | Int x, Int y => Int (x + y)
  | _, _ => NaN
  end.

(** [if (scoring[key]) total += count * scoring[key];] *)
Definition bonusStepJS (season : Season.t) (total : Num)
    (entry : string * Z) : Num :=
  let '(key, count) := entry in
  match member (Season.scoring season) key with
  | OwnNumber v => if v =? 0 then total else numAdd total (Int (count * v))
  | Inherited => numAdd total NaN
  | Undefined => total
  end.

Definition bonusPtsJS (season : Season.t) (c : option Contestant.t) : Num :=
  match c with
  | None => Int 0
  | Some c' =>
      match Contestant.bonuses c' with
      | None => Int 0
      | Some entries => fold_left (bonusStepJS season) entries (Int 0)
      end
  end.

(** ** Swap selector *)

(** [c && c.placement != null] *)
Definition eliminated (c : option Contestant.t) : bool :=
  match c with
  | Some c' => bool_decide (Contestant.placement c' ≠ None)
  | None => false
  end.

(** [pp < worstPts], where [worstPts] starts as [Infinity]. *)
Definition belowWorst (pp : Z) (worstPts : option Z) : bool :=
  match worstPts with
  | None => true
  | Some w => pp <? w
  end.

(** The loop [for (let i = 0; i < pickContestants.length; i++)], entered
    at index [i] with the rest [pcs] of the array still to visit; the
    state is [(worstIdx, worstPts)]. *)
Fixpoint worstLoop (season : Season.t) (pcs : list (option Contestant.t))
    (i : Z) (worstIdx : Z) (worstPts : option Z) : Z * option Z :=
  match pcs with
  | [] => (worstIdx, worstPts)
  | c :: rest =>
      let pp := placementPts season c in
      if eliminated c && belowWorst pp worstPts
      then worstLoop season rest (i + 1) i (Some pp)
      else worstLoop season rest (i + 1) worstIdx worstPts
  end.

(** [pickContestants[worstIdx]]: an index outside the array reads
    [undefined]. *)
Definition pickAt (pcs : list (option Contestant.t)) (idx : Z)
  : option Contestant.t :=
  if idx <? 0 then None else mjoin (pcs !! Z.to_nat idx).

(** The loop over the alternates, entered at index [a]; the result is
    [(swapIndex, swapAltIndex)]: both are assigned in the turn that
    [break]s, and both keep their initial [-1] when the loop runs to its
    end. *)
Fixpoint altLoop (season : Season.t) (acs : list (option Contestant.t))
    (a : Z) (worstIdx : Z) (target : option Contestant.t) : Z * Z :=
  match acs with
  | [] => (-1, -1)
  | alt :: rest =>
      if totalPts season target <? totalPts season alt
      then (worstIdx, a)
      else altLoop season rest (a + 1) worstIdx target
  end.

(** The whole search: [(swapIndex, swapAltIndex)]. *)
Definition swapSearch (season : Season.t)
    (pcs acs : list (option Contestant.t)) : Z * Z :=
  if 0 <? Z.of_nat (length acs)
  then
    let worstIdx := fst (worstLoop season pcs 0 (-1) None) in
    if negb (worstIdx =? -1)
    then altLoop season acs 0 worstIdx (pickAt pcs worstIdx)
    else (-1, -1)
  else (-1, -1).

(** ** Scored picks and alternates *)

Definition finalPicks (season : Season.t) (pcs : list (option Contestant.t))
    (swapIndex : Z) : list Pick.t :=
  imap (fun i c =>
          Pick.mk c (placementPts season c) (bonusPts season c)
                  (totalPts season c) (Z.of_nat i =? swapIndex)) pcs.

Definition activeAlts (season : Season.t) (acs : list (option Contestant.t))
    (swapAltIndex : Z) : list Alt.t :=
  imap (fun a c =>
          Alt.mk c (placementPts season c) (bonusPts season c)
                 (totalPts season c) (Z.of_nat a =? swapAltIndex)) acs.

(** ** Aggregation *)

(** The two loops that "sum active points". *)
Definition sumActive (fp : list Pick.t) (aa : list Alt.t) : Z :=
  let totalPoints :=
    fold_left (fun acc p => if Pick.swappedOut p then acc
                            else acc + Pick.total p) fp 0 in
  fold_left (fun acc alt => if Alt.swappedIn alt then acc + Alt.total alt
                            else acc) aa totalPoints.

(** [[...finalPicks.filter(p => !p.swappedOut).map(p => p.contestant),
      ...activeAlts.filter(a => a.swappedIn).map(a => a.contestant)]] *)
Definition activePicks (fp : list Pick.t) (aa : list Alt.t)
  : list (option Contestant.t) :=
  map Pick.contestant (List.filter (fun p => negb (Pick.swappedOut p)) fp)
  ++ map Alt.contestant (List.filter Alt.swappedIn aa).

(** A property read off an object is truthy when it is present and not 0. *)
Definition truthy (v : option Z) : bool :=
  match v with
  | Some n => negb (n =? 0)
  | None => false
  end.

(** One turn of the loop over [activePicks]; the state is
    [(winnerBonusPts, runnerUpBonusPts)]. *)
Definition bonusAwardStep (season : Season.t) (st : Z * Z)
    (c : option Contestant.t) : Z * Z :=
  match c with
  | None => st
  | Some c' =>
      let st1 :=
        if bool_decide (Contestant.placement c' = Some 1)
           && truthy (Season.scoring season !! "winnerBonus"%string)
        then (default 0 (Season.scoring season !! "winnerBonus"%string), snd st)
        else st in
      if bool_decide (Contestant.placement c' = Some 2)
         && truthy (Season.scoring season !! "runnerUpBonus"%string)
      then (fst st1, default 0 (Season.scoring season !! "runnerUpBonus"%string))
      else st1
  end.

Definition awardBonuses (season : Season.t)
    (active : list (option Contestant.t)) : Z * Z :=
  fold_left (bonusAwardStep season) active (0, 0).

(** The body of [picks.map(player => ...)]. *)
Definition scorePlayer (season : Season.t) (cmap : gmap string Contestant.t)
    (player : Player.t) : Standing.t :=
  let pcs := pickContestants cmap player in
  let acs := altContestants cmap player in
  let '(swapIndex, swapAltIndex) := swapSearch season pcs acs in
  let fp := finalPicks season pcs swapIndex in
  let aa := activeAlts season acs swapAltIndex in
  let totalPoints := sumActive fp aa in
  let '(winnerBonusPts, runnerUpBonusPts) :=
    awardBonuses season (activePicks fp aa) in
  Standing.mk (Player.name player) fp aa winnerBonusPts runnerUpBonusPts
              (totalPoints + (winnerBonusPts + runnerUpBonusPts)).

(** ** Sorting

    [results.sort((a, b) => b.total - a.total)].  A negative comparator
    value puts its first argument first, a positive one its second, and
    elements that compare equal keep their order. *)

Section Sort.
Context {A : Type} (cmp : A → A → Z).

Fixpoint insertSorted (x : A) (l : list A) : list A :=
  match l with
  | [] => [x]
  | y :: l' => if cmp x y <=? 0 then x :: y :: l'
               else y :: insertSorted x l'
  end.

Definition sortBy (l : list A) : list A := foldr insertSorted [] l.
End Sort.

Definition byTotalDesc (a b : Standing.t) : Z :=
  Standing.total b - Standing.total a.

Definition computeStandings (season : Season.t)
    (contestants : list Contestant.t) (picks : list Player.t)
  : list Standing.t :=
  let cmap := contestantMap contestants in
  let results := map (scorePlayer season cmap) picks in
  sortBy byTotalDesc results.

(** ** Vocabulary of the specification *)

Definition sumZ (l : list Z) : Z := foldr Z.add 0 l.

(** The totals of the picks that are not swapped out, and of the
    alternates that are swapped in. *)
Definition activePickTotals (s : Standing.t) : list Z :=
  map Pick.total
      (List.filter (fun p => negb (Pick.swappedOut p)) (Standing.picks s)).

Definition activeAltTotals (s : Standing.t) : list Z :=
  map Alt.total (List.filter Alt.swappedIn (Standing.alternates s)).



(** What one [(key, count)] pair of a bonus tally is worth: [count] times
    the points configured for [key], and nothing for a key that
    [season.scoring] does not have. *)
Definition entryPoints (season : Season.t) (entry : string * Z) : Z :=
  match Season.scoring season !! entry.1 with
  | Some v => entry.2 * v
  | None => 0
  end.

(** Pick [i], with contestant [c], is the swap target: [c] is eliminated,
    no eliminated pick has fewer placement points, and every eliminated
    pick before position [i] has strictly more. *)
Definition isSwapTarget (season : Season.t)
    (pcs : list (option Contestant.t)) (i : nat)
    (c : option Contestant.t) : Prop :=
  pcs !! i = Some c ∧ eliminated c = true ∧
  Forall (fun c' => eliminated c' = true →
                    placementPts season c ≤ placementPts season c') pcs ∧
  Forall (fun c' => eliminated c' = true →
                    placementPts season c < placementPts season c')
         (take i pcs).

(** Alternate [a] is the first whose total strictly exceeds the total of
    [target]. *)
Definition isFirstExceeding (season : Season.t)
    (acs : list (option Contestant.t)) (target : option Contestant.t)
    (a : nat) : Prop :=
  ∃ alt, acs !! a = Some alt ∧
         totalPts season target < totalPts season alt ∧
         Forall (fun alt' => totalPts season alt' ≤ totalPts season target)
                (take a acs).

(** No pick of the standing is marked [swappedOut] and no alternate
    [swappedIn]. *)
Definition noSwap (s : Standing.t) : Prop :=
  Forall (fun p => Pick.swappedOut p = false) (Standing.picks s) ∧
  Forall (fun q => Alt.swappedIn q = false) (Standing.alternates s).

(** Pick [i] is marked [swappedOut] and no other pick is; alternate [a] is
    marked [swappedIn] and no other alternate is. *)
Definition swapAt (s : Standing.t) (i a : nat) : Prop :=
  (i < length (Standing.picks s))%nat ∧
  (a < length (Standing.alternates s))%nat ∧
  (∀ k p, Standing.picks s !! k = Some p →
          Pick.swappedOut p = bool_decide (k = i)) ∧
  (∀ k q, Standing.alternates s !! k = Some q →
          Alt.swappedIn q = bool_decide (k = a)).

(** The invariant of the search for the worst pick, after the picks
    [seen]. *)
Definition worstInv (season : Season.t) (seen : list (option Contestant.t))
    (st : Z * option Z) : Prop :=
  (st = (-1, None) ∧ Forall (fun c => eliminated c = false) seen) ∨
  (∃ (i : nat) c, st = (Z.of_nat i, Some (placementPts season c)) ∧
                  isSwapTarget season seen i c).

(** A swap occurred: some pick is marked [swappedOut] or some alternate
    [swappedIn]. *)
Definition swapOccurs (s : Standing.t) : Prop :=
  Exists (fun p => Pick.swappedOut p = true) (Standing.picks s) ∨
  Exists (fun q => Alt.swappedIn q = true) (Standing.alternates s).

(** [c] is an eliminated pick with the lowest total among the eliminated
    picks. *)
Definition lowestTotalEliminated (season : Season.t)
    (pcs : list (option Contestant.t)) (c : option Contestant.t) : Prop :=
  c ∈ pcs ∧ eliminated c = true ∧
  Forall (fun c' => eliminated c' = true →
                    totalPts season c ≤ totalPts season c') pcs.

(** Some pick is eliminated and some alternate's total strictly exceeds
    the total of the eliminated pick with the lowest total. *)
Definition exceedsLowestTotal (season : Season.t)
    (pcs acs : list (option Contestant.t)) : Prop :=
  ∃ c, lowestTotalEliminated season pcs c ∧
       Exists (fun alt => totalPts season c < totalPts season alt) acs.

(** Some pick is eliminated and some alternate's total strictly exceeds
    the total of the swap target. *)
Definition exceedsSwapTarget (season : Season.t)
    (pcs acs : list (option Contestant.t)) : Prop :=
  ∃ i c, isSwapTarget season pcs i c ∧
         Exists (fun alt => totalPts season c < totalPts season alt) acs.

(** The number of picks marked [swappedOut], of alternates marked
    [swappedIn]. *)
Definition swappedOutCount (s : Standing.t) : nat :=
  length (List.filter Pick.swappedOut (Standing.picks s)).

Definition swappedInCount (s : Standing.t) : nat :=
  length (List.filter Alt.swappedIn (Standing.alternates s)).

(** The active roster of a standing: the contestants of its picks that are
    not swapped out, then those of its alternates that are swapped in. *)
Definition activeRoster (s : Standing.t) : list (option Contestant.t) :=
  activePicks (Standing.picks s) (Standing.alternates s).

(** Some contestant of the roster has placement [k]. *)
Definition hasPlacement (k : Z) (roster : list (option Contestant.t)) : Prop :=
  ∃ c, Some c ∈ roster ∧ Contestant.placement c = Some k.

(** The standing has an active contestant of placement [k]: the
    contestant of a pick that is not marked [swappedOut], or of an
    alternate that is marked [swappedIn]. *)
Definition activeHasPlacement (k : Z) (s : Standing.t) : Prop :=
  (∃ p c, p ∈ Standing.picks s ∧ Pick.swappedOut p = false ∧
          Pick.contestant p = Some c ∧ Contestant.placement c = Some k) ∨
  (∃ q c, q ∈ Standing.alternates s ∧ Alt.swappedIn q = true ∧
          Alt.contestant q = Some c ∧ Contestant.placement c = Some k).

(** [c] exists and [c.placement === k]. *)
Definition placedAt (k : Z) (c : option Contestant.t) : bool :=
  match c with
  | Some c' => bool_decide (Contestant.placement c' = Some k)
  | None => false
  end.

(** ** The scenarios of the specification *)

Definition scenarioSeason : Season.t :=
  Season.mk 3 (<["winnerBonus"%string := 5]>
               (<["runnerUpBonus"%string := 2]> ∅)).

Definition cA := Contestant.mk "A" (Some 1) None.
Definition cB := Contestant.mk "B" (Some 2) None.
Definition cC := Contestant.mk "C" (Some 3) None.
Definition scenarioRoster := [cA; cB; cC].

Definition playerA := Player.mk "p" ["C"%string] (Some ["A"%string]).
Definition playerB := Player.mk "q" ["A"%string] (Some ["C"%string]).

Definition standingA : Standing.t :=
  scorePlayer scenarioSeason (contestantMap scenarioRoster) playerA.

(** A season of five with a gameplay bonus. *)
Definition bonusSeason : Season.t :=
  Season.mk 5 (<["immunityWin"%string := 10]>
               (<["winnerBonus"%string := 5]>
                (<["runnerUpBonus"%string := 2]> ∅))).

(** The finished season: Vic went out first, then Xena, who had won an
    immunity challenge, then Yul; Zoe was runner-up and Wes won. *)
Definition cVic := Contestant.mk "Vic" (Some 5) None.
Definition cXena :=
  Contestant.mk "Xena" (Some 4) (Some [("immunityWin"%string, 1)]).
Definition cYul := Contestant.mk "Yul" (Some 3) None.
Definition cZoe := Contestant.mk "Zoe" (Some 2) None.
Definition cWes := Contestant.mk "Wes" (Some 1) None.
Definition bonusRoster := [cVic; cXena; cYul; cZoe; cWes].

(** Picks Xena and Yul, alternate Zoe. *)
Definition playerXY :=
  Player.mk "r" ["Xena"%string; "Yul"%string] (Some ["Zoe"%string]).

Definition standingXY : Standing.t :=
  scorePlayer bonusSeason (contestantMap bonusRoster) playerXY.

(** The same season after two eliminations: Yul, Zoe and Wes are still in
    the game, and Wes has won an immunity challenge. *)
Definition cYulIn := Contestant.mk "Yul" None None.
Definition cZoeIn := Contestant.mk "Zoe" None None.
Definition cWesIn :=
  Contestant.mk "Wes" None (Some [("immunityWin"%string, 1)]).
Definition midSeasonRoster := [cVic; cXena; cYulIn; cZoeIn; cWesIn].

(** Picks Vic, alternate Wes. *)
Definition playerVW :=
  Player.mk "t" ["Vic"%string] (Some ["Wes"%string]).

Definition standingVW : Standing.t :=
  scorePlayer bonusSeason (contestantMap midSeasonRoster) playerVW.

(** A contestant whose tally has a key that [season.scoring] does not
    have and every object inherits. *)
Definition cTosh :=
  Contestant.mk "Tosh" None (Some [("toString"%string, 1)]).

(** Picks the winner and the runner-up. *)
Definition playerAB := Player.mk "u" ["A"%string; "B"%string] None.

(** A roster with two contestants entered at placement 1. *)
Definition cA' := Contestant.mk "A2" (Some 1) None.
Definition playerAA := Player.mk "v" ["A"%string; "A2"%string] None.

(** Picks a name that is not in the roster, with an alternate. *)
Definition playerGhost :=
  Player.mk "w" ["Nobody"%string; "C"%string] (Some ["A"%string]).

(** * The views that read the standings

    [renderSeason] and [renderPlayer] (src/worker/worker.js, lines
    371-608) call [computeStandings] and read its result; [ordinal]
    (lines 817-822) prints a placement. *)


(** [standings.find(p => p.name === playerName)] in [renderPlayer];
    [None] is the "player not found" page. *)
Definition findResult (season : Season.t) (contestants : list Contestant.t)
    (picks : list Player.t) (playerName : string) : option Standing.t :=
  List.find (fun p => String.eqb (Standing.name p) playerName)
            (computeStandings season contestants picks).

(** [c.placement] read as a number in [b.placement - a.placement]. *)
Definition placementNum (c : Contestant.t) : Z :=
  default 0 (Contestant.placement c).

Definition byPlacementDesc (a b : Contestant.t) : Z :=
  placementNum b - placementNum a.

(** The elimination timeline:
    [contestants.filter(c => c.placement != null)
                .sort((a, b) => b.placement - a.placement)]. *)
Definition eliminationOrder (contestants : list Contestant.t)
  : list Contestant.t :=
  sortBy byPlacementDesc
         (List.filter (fun c => eliminated (Some c)) contestants).

(** ** [ordinal] *)

(** [const s = ['th', 'st', 'nd', 'rd']], and [s[k]] for an integer [k]:
    [undefined] outside the array. *)
Definition ordinalSuffixes : list string :=
  ["th"%string; "st"%string; "nd"%string; "rd"%string].

Definition suffixAt (k : Z) : option string :=
  if k <? 0 then None else ordinalSuffixes !! Z.to_nat k.

(** [a || b] on values that are a string or [undefined]: the empty string
    is falsy. *)
Definition orElse (a b : option string) : option string :=
  match a with
  | Some x => if String.eqb x "" then b else a
  | None => b
  end.

(** [s[(v - 20) % 10] || s[v] || s[0]] with [v = n % 100]; [%] is the
    remainder that takes the sign of the dividend. *)
Definition ordinalSuffix (n : Z) : string :=
  let v := Z.rem n 100 in
  default ""%string
    (orElse (orElse (suffixAt (Z.rem (v - 20) 10)) (suffixAt v))
            (suffixAt 0)).

(** [Number.MAX_SAFE_INTEGER]: up to it, in absolute value, a number is
    the integer it denotes and prints as its decimal digits. *)
Definition maxSafeInteger : Z := 2 ^ 53 - 1.

(** An integer converted to a string by [+]. *)
Definition decimal (n : Z) : string :=
  NilZero.string_of_int (Z.to_int n).

(** [if (n == null) return '?'; ... return n + (...)] *)
Definition ordinal (n : option Z) : string :=
  match n with
  | None => "?"%string
  | Some n' => (decimal n' ++ ordinalSuffix n')%string
  end.

(** The suffix English gives a number whose residue modulo 100 is [v]. *)
Definition englishSuffix (n : Z) : string :=
  if bool_decide (n mod 10 = 1 ∧ n mod 100 ≠ 11) then "st"%string
  else if bool_decide (n mod 10 = 2 ∧ n mod 100 ≠ 12) then "nd"%string
  else if bool_decide (n mod 10 = 3 ∧ n mod 100 ≠ 13) then "rd"%string
  else "th"%string.

(** * Loading the picks of a season

    [loadSeasonData] (src/worker/worker.js, lines 163-195) merges the
    picks stored by the worker into the static ones.  The outcome of the
    request to the worker is an input: [None] when the request fails, the
    response is not [ok] or has no [picks], and [Some] of the list
    otherwise.  The cache is not modelled. *)

(** A [Map] keeps its entries in the order in which their keys were first
    set; [set] on a key it has replaces the value where it stands. *)
Fixpoint mapSet {V : Type} (k : string) (v : V) (m : list (string * V))
  : list (string * V) :=
  match m with
  | [] => [(k, v)]
  | e :: rest => if String.eqb e.1 k then (k, v) :: rest
                 else e :: mapSet k v rest
  end.

(** [for (const p of staticPicks) merged.set(p.name, p);
     for (const p of data.picks) merged.set(p.name, p);
     picks = Array.from(merged.values());] *)
Definition mergePicks (staticPicks workerPicks : list Player.t)
  : list Player.t :=
  let merged :=
    fold_left (fun m p => mapSet (Player.name p) p m) staticPicks [] in
  let merged :=
    fold_left (fun m p => mapSet (Player.name p) p m) workerPicks merged in
  map snd merged.

Definition loadPicks (status : string) (staticPicks : list Player.t)
    (workerPicks : option (list Player.t)) : list Player.t :=
  if String.eqb status "active"
  then match workerPicks with
       | Some wp => if 0 <? Z.of_nat (length wp)
                    then mergePicks staticPicks wp
                    else staticPicks
       | None => staticPicks
       end
  else staticPicks.

(** The last entry of a list of picks that has a given name. *)
Definition lastNamed (nm : string) (l : list Player.t) : option Player.t :=
  List.find (fun p => String.eqb (Player.name p) nm) (rev l).

(** * The picks store of the worker

    The request handlers of the worker (src/worker/worker.js, lines
    23-141) as transitions of the key/value store.  The keys
    [config:<season>] and [picks:<season>] are two maps from the season.
    A handler runs as one step: what another request does between its
    [get] and its [put] is not modelled.  A body that is not JSON is
    [None]; [season] and [name] are strings and [picks] an array of
    strings, [None] when absent or [null]; [alternates], which the handler
    stores without looking at it, is any value.  A deadline is the time it
    denotes, [None] when it is absent, falsy or not a date; [now] is the
    time of the request. *)

(** A truthy value of [alternates]: an array of names, a string (given by
    the characters its iteration yields), or a value that is neither and
    cannot be iterated: a number, [true], an object. *)
Inductive Alternates : Type :=
| AltsArray (names : list string)
| AltsText (characters : list string)
| AltsOther.

(** [alternates || []]: a value that is absent, [null], [false], 0 or the
    empty string gives the empty array. *)
Definition orEmptyArray (alternates : option Alternates) : Alternates :=
  match alternates with
  | None | Some (AltsText []) => AltsArray []
  | Some a => a
  end.

(** [[...a]]: the entries of an array, the characters of a string; a value
    that cannot be iterated throws. *)
Definition spread (a : Alternates) : option (list string) :=
  match a with
  | AltsArray names => Some names
  | AltsText characters => Some characters
  | AltsOther => None
  end.

Module Stored.
Record t := mk {
  name : string;
  picks : list string;
  alternates : Alternates;
  submittedAt : Z
}.
End Stored.

Module Config.
Record t := mk {
  deadline : option Z;
  open : option bool;
  contestants : option (list string)
}.
End Config.

Module Store.
Record t := mk {
  config : gmap string Config.t;
  picks : gmap string (list Stored.t)
}.
End Store.

(** The body of [POST /picks] and of [POST /admin/delete-pick]. *)
Module Body.
Record t := mk {
  season : option string;
  name : option string;
  picks : option (list string);
  alternates : option Alternates
}.
End Body.

(** The body of [POST /admin/config]: for each key the code reads, [None]
    when the body does not have the key and [Some v] when it has it with
    value [v]. *)
Module ConfigBody.
Record t := mk {
  season : option string;
  deadline : option (option Z);
  open : option (option bool);
  contestants : option (option (list string))
}.
End ConfigBody.

Inductive Reply : Type :=
| ReplyError (code : Z) (message : string)
| ReplyInvalid (invalid : list string)
| ReplySubmitted (playerName : string)
| ReplyDeleted (remaining : nat)
| ReplyConfig (merged : Config.t).

Definition replyStatus (r : Reply) : Z :=
  match r with
  | ReplyError code _ => code
  | ReplyInvalid _ => 400
  | ReplySubmitted _ | ReplyDeleted _ | ReplyConfig _ => 200
  end.

(** [!x] for a string that may be absent. *)
Definition falsyStr (x : option string) : bool :=
  match x with
  | None => true
  | Some x' => String.eqb x' ""
  end.

(** [await env.DATA.get(`picks:${season}`, 'json') || []] *)
Definition storedPicks (st : Store.t) (season : string) : list Stored.t :=
  default [] (Store.picks st !! season).

(** [auth === `Bearer ${env.ADMIN_SECRET}`] *)
Definition isAuthorized (auth : option string) (secret : string) : bool :=
  bool_decide (auth = Some ("Bearer " ++ secret)%string).

(** The block [if (config) { ... }] of [POST /picks]: the reply it returns
    early, if any.  The spread of [alternates || []] throws on a value
    that cannot be iterated, and the handler answers what its [catch]
    returns. *)
Definition checkConfig (config : option Config.t) (now : Z)
    (picks : list string) (alternates : Alternates) : option Reply :=
  match config with
  | None => None
  | Some cfg =>
      if match Config.deadline cfg with
         | Some d => d <=? now
         | None => false
         end
      then Some (ReplyError 403 "submissions are closed")
      else if bool_decide (Config.open cfg = Some false)
      then Some (ReplyError 403 "submissions are not open")
      else match Config.contestants cfg with
           | None => None
           | Some valid =>
               match spread alternates with
               | None => Some (ReplyError 400 "invalid request body")
               | Some alts =>
                   let allPicks := picks ++ alts in
                   let invalid :=
                     List.filter (fun p => negb (bool_decide (p ∈ valid)))
                                 allPicks in
                   if 0 <? Z.of_nat (length invalid)
                   then Some (ReplyInvalid invalid)
                   else None
               end
           end
  end.

Section Worker.
(** [name.trim().toLowerCase()] *)
Variable normalize : string → string.

(** [POST /picks] *)
Definition postPicks (now submittedAt : Z) (body : option Body.t)
    (st : Store.t) : Reply * Store.t :=
  match body with
  | None => (ReplyError 400 "invalid request body", st)
  | Some b =>
      match Body.season b, Body.name b, Body.picks b with
      | Some season, Some name, Some picks =>
          if falsyStr (Some season) || falsyStr (Some name)
          then (ReplyError 400 "missing required fields: season, name, picks",
                st)
          else
            let alternates := orEmptyArray (Body.alternates b) in
            match checkConfig (Store.config st !! season) now
                              picks alternates with
            | Some reply => (reply, st)
            | None =>
                let playerName := normalize name in
                let existing :=
                  List.filter
                    (fun p => negb (String.eqb (Stored.name p) playerName))
                    (storedPicks st season) in
                let existing :=
                  existing
                  ++ [Stored.mk playerName picks alternates submittedAt] in
                (ReplySubmitted playerName,
                 Store.mk (Store.config st)
                          (<[season := existing]> (Store.picks st)))
            end
      | _, _, _ =>
          (ReplyError 400 "missing required fields: season, name, picks", st)
      end
  end.
End Worker.

(** [POST /admin/delete-pick] *)
Definition deletePick (auth : option string) (secret : string)
    (body : option Body.t) (st : Store.t) : Reply * Store.t :=
  if negb (isAuthorized auth secret)
  then (ReplyError 401 "unauthorized", st)
  else
    match body with
    | None => (ReplyError 400 "invalid request body", st)
    | Some b =>
        match Body.season b, Body.name b with
        | Some season, Some name =>
            if falsyStr (Some season) || falsyStr (Some name)
            then (ReplyError 400 "season and name required", st)
            else
              let picks :=
                List.filter (fun p => negb (String.eqb (Stored.name p) name))
                            (storedPicks st season) in
              (ReplyDeleted (length picks),
               Store.mk (Store.config st)
                        (<[season := picks]> (Store.picks st)))
        | _, _ => (ReplyError 400 "season and name required", st)
        end
    end.

(** [{ ...existing, ...config }] on the keys the code reads. *)
Definition mergeConfig (existing : Config.t) (body : ConfigBody.t)
  : Config.t :=
  Config.mk (default (Config.deadline existing) (ConfigBody.deadline body))
            (default (Config.open existing) (ConfigBody.open body))
            (default (Config.contestants existing)
                     (ConfigBody.contestants body)).

(** [POST /admin/config] *)
Definition adminConfig (auth : option string) (secret : string)
    (body : option ConfigBody.t) (st : Store.t) : Reply * Store.t :=
  if negb (isAuthorized auth secret)
  then (ReplyError 401 "unauthorized", st)
  else
    match body with
    | None => (ReplyError 400 "invalid request body", st)
    | Some b =>
        if falsyStr (ConfigBody.season b)
        then (ReplyError 400 "season required", st)
        else
          let season := default ""%string (ConfigBody.season b) in
          let existing :=
            default (Config.mk None None None) (Store.config st !! season) in
          let merged := mergeConfig existing b in
          (ReplyConfig merged,
           Store.mk (<[season := merged]> (Store.config st))
                    (Store.picks st))
    end.

(** The requests that write to the store, and the store after a sequence
    of them. *)
Inductive Request : Type :=
| Submit (now submittedAt : Z) (body : option Body.t)
| Delete (auth : option string) (body : option Body.t)
| SetConfig (auth : option string) (body : option ConfigBody.t).

Definition handle (normalize : string → string) (secret : string)
    (req : Request) (st : Store.t) : Reply * Store.t :=
  match req with
  | Submit now submittedAt body => postPicks normalize now submittedAt body st
  | Delete auth body => deletePick auth secret body st
  | SetConfig auth body => adminConfig auth secret body st
  end.

Definition serve (normalize : string → string) (secret : string)
    (reqs : list Request) (st : Store.t) : Store.t :=
  fold_left (fun st req => (handle normalize secret req st).2) reqs st.

Definition emptyStore : Store.t := Store.mk ∅ ∅.

(** No season has two stored submissions of the same name. *)
Definition uniqueNames (st : Store.t) : Prop :=
  ∀ season l, Store.picks st !! season = Some l →
              NoDup (map Stored.name l).

(** The stored submission holds an array of alternates. *)
Definition arrayAlternates (r : Stored.t) : Prop :=
  ∃ names, Stored.alternates r = AltsArray names.

(** The request, if it is a submission, has no [alternates] or an array. *)
Definition submitsArray (req : Request) : Prop :=
  match req with
  | Submit _ _ (Some b) => ∃ names, orEmptyArray (Body.alternates b)
                                    = AltsArray names
  | _ => True
  end.

(** Every stored submission holds an array of alternates. *)
Definition arrayStore (st : Store.t) : Prop :=
  ∀ season l, Store.picks st !! season = Some l → Forall arrayAlternates l.

(** The stored submission as [computeStandings] reads it, [None] when
    [(player.alternates || []).map] throws: [alternates] is a string that
    is not empty or a value without [map]. *)
Definition toPlayer (r : Stored.t) : option Player.t :=
  match orEmptyArray (Some (Stored.alternates r)) with
  | AltsArray names =>
      Some (Player.mk (Stored.name r) (Stored.picks r) (Some names))
  | AltsText _ | AltsOther => None
  end.

(** [computeStandings] on stored submissions, [None] when it throws. *)
Definition standingsOfStored (season : Season.t)
    (contestants : list Contestant.t) (stored : list Stored.t)
  : option (list Standing.t) :=
  computeStandings season contestants <$> mapM toPlayer stored.

(** * The pick selector of the submit page

    The card picker and the submit handler of [renderSubmit]
    (src/worker/worker.js, lines 703-785): the array [selected] is the
    state, a click on a contestant card or on a slot is a step.  The
    counts [picksPerPlayer] and [alternates] are integers. *)

(** [selected.indexOf(name)]: the first index that holds [name], or -1. *)
Fixpoint indexOfFrom (name : string) (l : list string) (i : Z) : Z :=
  match l with
  | [] => -1
  | x :: rest => if String.eqb x name then i
                 else indexOfFrom name rest (i + 1)
  end.

Definition indexOf (name : string) (l : list string) : Z :=
  indexOfFrom name l 0.

(** The click handler of a contestant card. *)
Definition clickCard (totalSlots : Z) (name : string)
    (selected : list string) : list string :=
  let idx := indexOf name selected in
  if negb (idx =? -1)
  then delete (Z.to_nat idx) selected
  else if Z.of_nat (length selected) <? totalSlots
  then selected ++ [name]
  else selected.

(** The click handler of slot [i]: [if (selected[i]) selected.splice(i, 1)]. *)
Definition clickSlot (i : nat) (selected : list string) : list string :=
  match selected !! i with
  | Some name => if String.eqb name "" then selected else delete i selected
  | None => selected
  end.

Inductive Click : Type :=
| ClickCard (name : string)
| ClickSlot (i : nat).

Definition click (totalSlots : Z) (selected : list string) (c : Click)
  : list string :=
  match c with
  | ClickCard name => clickCard totalSlots name selected
  | ClickSlot i => clickSlot i selected
  end.

(** [selected] after a sequence of clicks, from [const selected = []]. *)
Definition picker (totalSlots : Z) (clicks : list Click) : list string :=
  fold_left (click totalSlots) clicks [].

(** An index argument of [slice], relative to the length: a negative one
    counts from the end. *)
Definition relIndex (len k : Z) : Z :=
  if k <? 0 then Z.max (len + k) 0 else Z.min k len.

(** [l.slice(start)] and [l.slice(start, stop)]. *)
Definition jsSlice {A : Type} (l : list A) (start : Z) (stop : option Z)
  : list A :=
  let len := Z.of_nat (length l) in
  let from := relIndex len start in
  let to := match stop with
            | Some e => relIndex len e
            | None => len
            end in
  take (Z.to_nat (to - from)) (drop (Z.to_nat from) l).

Inductive FormError : Type :=
| EnterName
| AlreadySubmitted (name : string)
| SelectContestants (totalSlots : Z).

(** The submit handler up to the request it sends: the message it shows,
    or the body of [POST /picks]. *)
Definition submitForm (normalize : string → string)
    (existingNames : list string) (seasonId : string)
    (picksPerPlayer alternates : Z) (nameInput : string)
    (selected : list string) : FormError + Body.t :=
  let totalSlots := picksPerPlayer + alternates in
  let name := normalize nameInput in
  if String.eqb name "" then inl EnterName
  else if bool_decide (name ∈ existingNames) then inl (AlreadySubmitted name)
  else if Z.of_nat (length selected) <? totalSlots
  then inl (SelectContestants totalSlots)
  else
    let picks := jsSlice selected 0 (Some picksPerPlayer) in
    let alternates := jsSlice selected picksPerPlayer None in
    inr (Body.mk (Some seasonId) (Some name) (Some picks)
                 (Some (AltsArray alternates))).

(** The winner with a bonus-laden alternate: the only pick is the winner,
    the alternate went out first with three immunity wins. *)
Definition cIda :=
  Contestant.mk "Ida" (Some 5) (Some [("immunityWin"%string, 3)]).
Definition playerWesIda :=
  Player.mk "x" ["Wes"%string] (Some ["Ida"%string]).

(** A store and requests to try the handlers on. *)
Definition keepName (x : string) : string := x.

Definition demoConfig : Config.t :=
  Config.mk (Some 1000) (Some true)
            (Some ["A"%string; "B"%string; "C"%string]).

Definition demoStore : Store.t :=
  Store.mk (<["s50"%string := demoConfig]> ∅)
           (<["s50"%string := [Stored.mk "ann" ["C"%string] (AltsArray []) 5;
                               Stored.mk "bob" ["A"%string] (AltsArray []) 6
                              ]]> ∅).

Definition demoBody : Body.t :=
  Body.mk (Some "s50"%string) (Some "ann"%string)
          (Some ["A"%string; "B"%string]) (Some (AltsArray ["C"%string])).

Definition demoStored : Stored.t :=
  Stored.mk "ann" ["A"%string; "B"%string] (AltsArray ["C"%string]) 7.

(** A body whose [alternates] is the string [BC], and one whose
    [alternates] is the number 5. *)
Definition textBody : Body.t :=
  Body.mk (Some "s50"%string) (Some "cat"%string) (Some ["A"%string])
          (Some (AltsText ["B"%string; "C"%string])).

Definition numberBody : Body.t :=
  Body.mk (Some "s51"%string) (Some "dan"%string) (Some ["A"%string])
          (Some AltsOther).

Definition demoAuth : option string := Some "Bearer secret"%string.

(** * Properties *)

Example scenario_A :
  map Standing.total (computeStandings scenarioSeason scenarioRoster [playerA])
  = [8].
Proof. vm_compute. reflexivity. Qed.

Example scenario_B :
  map Standing.total (computeStandings scenarioSeason scenarioRoster [playerB])
  = [8].
Proof. vm_compute. reflexivity. Qed.

(** ** The sort *)

Section SortFacts.
Context {A : Type} (cmp : A → A → Z) (key : A → Z).
Hypothesis cmp_key : ∀ a b, cmp a b = key b - key a.

Lemma insertSorted_perm x l : insertSorted cmp x l ≡ₚ x :: l.
Proof.
  induction l as [|y l IH]; simpl; [done|].
  destruct (cmp x y <=? 0); [done|].
  rewrite IH. apply perm_swap.
Qed.

Lemma sortBy_perm l : sortBy cmp l ≡ₚ l.
Proof.
  induction l as [|x l IH]; simpl; [done|].
  by rewrite insertSorted_perm, IH.
Qed.

Lemma insertSorted_sorted x l :
  StronglySorted (fun a b => key b ≤ key a) l →
  StronglySorted (fun a b => key b ≤ key a) (insertSorted cmp x l).
Proof.
  induction 1 as [|y l Hl IH Hy]; simpl.
  - repeat constructor.
  - destruct (Z.leb_spec (cmp x y) 0) as [Hle|Hgt]; rewrite cmp_key in *.
    + constructor; [by constructor|].
      constructor; [lia|].
      eapply Forall_impl; [exact Hy|]. intros z Hz. simpl in Hz. lia.
    + constructor; [exact IH|].
      rewrite insertSorted_perm. constructor; [lia|exact Hy].
Qed.

Lemma sortBy_sorted l :
  StronglySorted (fun a b => key b ≤ key a) (sortBy cmp l).
Proof.
  induction l as [|x l IH]; simpl; [constructor|].
  by apply insertSorted_sorted.
Qed.

Lemma insertSorted_filter t x l :
  List.filter (fun a => key a =? t) (insertSorted cmp x l)
  = List.filter (fun a => key a =? t) (x :: l).
Proof.
  induction l as [|y l IH]; [done|].
  cbn [insertSorted].
  destruct (Z.leb_spec (cmp x y) 0) as [Hle|Hgt]; [done|].
  rewrite cmp_key in Hgt.
  cbn [List.filter] in *. rewrite IH.
  destruct (Z.eqb_spec (key x) t) as [Hx|Hx]; [|done].
  destruct (Z.eqb_spec (key y) t) as [Hy|Hy]; [lia|done].
Qed.

Lemma sortBy_stable t l :
  List.filter (fun a => key a =? t) (sortBy cmp l)
  = List.filter (fun a => key a =? t) l.
Proof.
  induction l as [|x l IH]; [done|].
  cbn [sortBy foldr]. rewrite insertSorted_filter.
  cbn [List.filter]. fold (sortBy cmp l). by rewrite IH.
Qed.
End SortFacts.

Lemma computeStandings_perm season contestants subs :
  computeStandings season contestants subs
  ≡ₚ map (scorePlayer season (contestantMap contestants)) subs.
Proof. apply sortBy_perm. Qed.

Lemma elem_of_computeStandings season contestants subs s :
  s ∈ computeStandings season contestants subs ↔
  ∃ player, player ∈ subs ∧
            s = scorePlayer season (contestantMap contestants) player.
Proof.
  rewrite computeStandings_perm, list_elem_of_In, in_map_iff.
  setoid_rewrite <- list_elem_of_In.
  split; intros (player & H1 & H2); exists player; by split.
Qed.


(** ** Aggregation *)

Lemma fold_left_add_shift {A} (f : A → Z) (g : A → bool) l acc :
  fold_left (fun acc x => if g x then acc + f x else acc) l acc
  = acc + sumZ (map f (List.filter g l)).
Proof.
  revert acc. induction l as [|x l IH]; intros acc; simpl; [lia|].
  rewrite IH. destruct (g x); simpl; lia.
Qed.

Lemma fold_left_skip_shift {A} (f : A → Z) (g : A → bool) l acc :
  fold_left (fun acc x => if g x then acc else acc + f x) l acc
  = acc + sumZ (map f (List.filter (fun x => negb (g x)) l)).
Proof.
  revert acc. induction l as [|x l IH]; intros acc; simpl; [lia|].
  rewrite IH. destruct (g x); simpl; lia.
Qed.

Lemma sumActive_spec fp aa :
  sumActive fp aa
  = sumZ (map Pick.total (List.filter (fun p => negb (Pick.swappedOut p)) fp))
    + sumZ (map Alt.total (List.filter Alt.swappedIn aa)).
Proof.
  unfold sumActive.
  rewrite (fold_left_add_shift Alt.total Alt.swappedIn).
  rewrite (fold_left_skip_shift Pick.total Pick.swappedOut). lia.
Qed.

Lemma scorePlayer_total season cmap player :
  let s := scorePlayer season cmap player in
  Standing.total s
  = sumZ (activePickTotals s) + sumZ (activeAltTotals s)
    + Standing.winnerBonus s + Standing.runnerUpBonus s.
Proof.
  unfold scorePlayer, activePickTotals, activeAltTotals.
  destruct (swapSearch _ _ _) as [swapIndex swapAltIndex].
  destruct (awardBonuses _ _) as [w r]. simpl.
  rewrite sumActive_spec. lia.
Qed.

(** C1.  The [total] of every standing in the output is the sum of the
    totals of its picks that are not swapped out, plus the totals of its
    alternates that are swapped in, plus the two awarded bonuses; a
    swapped-out pick does not enter the sum. *)
Theorem C1_total_decomposition season contestants subs s :
  s ∈ computeStandings season contestants subs →
  Standing.total s
  = sumZ (activePickTotals s) + sumZ (activeAltTotals s)
    + Standing.winnerBonus s + Standing.runnerUpBonus s.
Proof.
  intros Hs. apply elem_of_computeStandings in Hs as (player & _ & ->).
  apply scorePlayer_total.
Qed.

Lemma C1_total_decomposition_witness :
  standingA ∈ computeStandings scenarioSeason scenarioRoster [playerA] ∧
  Standing.total standingA
  = sumZ (activePickTotals standingA) + sumZ (activeAltTotals standingA)
    + Standing.winnerBonus standingA + Standing.runnerUpBonus standingA.
Proof.
  assert (H : standingA
              ∈ computeStandings scenarioSeason scenarioRoster [playerA])
    by (vm_compute; constructor).
  split; [exact H|].
  exact (C1_total_decomposition scenarioSeason scenarioRoster [playerA]
           standingA H).
Defined.

(** ** The fields of a scored pick and of a scored alternate *)

Lemma scorePlayer_picks season cmap player :
  Standing.picks (scorePlayer season cmap player)
  = finalPicks season (pickContestants cmap player)
      (swapSearch season (pickContestants cmap player)
                  (altContestants cmap player)).1.
Proof.
  unfold scorePlayer. destruct (swapSearch _ _ _) as [si sa].
  by destruct (awardBonuses _ _).
Qed.

Lemma scorePlayer_alternates season cmap player :
  Standing.alternates (scorePlayer season cmap player)
  = activeAlts season (altContestants cmap player)
      (swapSearch season (pickContestants cmap player)
                  (altContestants cmap player)).2.
Proof.
  unfold scorePlayer. destruct (swapSearch _ _ _) as [si sa].
  by destruct (awardBonuses _ _).
Qed.

Lemma scorePlayer_name season cmap player :
  Standing.name (scorePlayer season cmap player) = Player.name player.
Proof.
  unfold scorePlayer. destruct (swapSearch _ _ _) as [si sa].
  by destruct (awardBonuses _ _).
Qed.

Lemma finalPicks_lookup season pcs si (k : nat) :
  finalPicks season pcs si !! k
  = (fun c => Pick.mk c (placementPts season c) (bonusPts season c)
                      (totalPts season c) (Z.of_nat k =? si)) <$> pcs !! k.
Proof. unfold finalPicks. by rewrite list_lookup_imap. Qed.

Lemma activeAlts_lookup season acs sa (k : nat) :
  activeAlts season acs sa !! k
  = (fun c => Alt.mk c (placementPts season c) (bonusPts season c)
                     (totalPts season c) (Z.of_nat k =? sa)) <$> acs !! k.
Proof. unfold activeAlts. by rewrite list_lookup_imap. Qed.

Lemma scored_pick_fields season contestants subs s p :
  s ∈ computeStandings season contestants subs →
  p ∈ Standing.picks s →
  Pick.placement p = placementPts season (Pick.contestant p) ∧
  Pick.bonus p = bonusPts season (Pick.contestant p) ∧
  Pick.total p = totalPts season (Pick.contestant p).
Proof.
  intros Hs Hp. apply elem_of_computeStandings in Hs as (player & _ & ->).
  rewrite scorePlayer_picks in Hp.
  apply list_elem_of_lookup in Hp as [k Hk].
  rewrite finalPicks_lookup in Hk.
  destruct (_ !! k) as [c|]; simplify_eq/=. done.
Qed.

Lemma scored_alt_fields season contestants subs s q :
  s ∈ computeStandings season contestants subs →
  q ∈ Standing.alternates s →
  Alt.placement q = placementPts season (Alt.contestant q) ∧
  Alt.bonus q = bonusPts season (Alt.contestant q) ∧
  Alt.total q = totalPts season (Alt.contestant q).
Proof.
  intros Hs Hq. apply elem_of_computeStandings in Hs as (player & _ & ->).
  rewrite scorePlayer_alternates in Hq.
  apply list_elem_of_lookup in Hq as [k Hk].
  rewrite activeAlts_lookup in Hk.
  destruct (_ !! k) as [c|]; simplify_eq/=. done.
Qed.

(** ** Points calculator *)

(** C6.  [placementPts] is [contestantCount + 1 - placement] for a
    contestant that exists and has a placement, and 0 for an absent
    contestant or one without placement; so the winner scores
    [contestantCount] and the contestant placed [contestantCount] scores 1.
    The [placement] field of every scored pick and alternate of the output
    is this value for its contestant. *)
Theorem C6_placement_points season :
  (∀ c p, Contestant.placement c = Some p →
          placementPts season (Some c)
          = Season.contestantCount season + 1 - p) ∧
  placementPts season None = 0 ∧
  (∀ c, Contestant.placement c = None → placementPts season (Some c) = 0) ∧
  (∀ c, Contestant.placement c = Some 1 →
        placementPts season (Some c) = Season.contestantCount season) ∧
  (∀ c, Contestant.placement c = Some (Season.contestantCount season) →
        placementPts season (Some c) = 1) ∧
  (∀ contestants subs s,
     s ∈ computeStandings season contestants subs →
     (∀ p, p ∈ Standing.picks s →
           Pick.placement p = placementPts season (Pick.contestant p)) ∧
     (∀ q, q ∈ Standing.alternates s →
           Alt.placement q = placementPts season (Alt.contestant q))).
Proof.
  repeat split.
  - intros c p Hp. simpl. by rewrite Hp.
  - intros c Hp. simpl. by rewrite Hp.
  - intros c Hp. simpl. rewrite Hp. lia.
  - intros c Hp. simpl. rewrite Hp. lia.
  - intros p Hp. by eapply scored_pick_fields.
  - intros q Hq. by eapply scored_alt_fields.
Qed.

Lemma C6_placement_points_witness :
  Contestant.placement cA = Some 1 ∧ placementPts scenarioSeason (Some cA) = 3 ∧
  Contestant.placement cC = Some 3 ∧ placementPts scenarioSeason (Some cC) = 1.
Proof.
  destruct (C6_placement_points scenarioSeason)
    as (_ & _ & _ & Hwin & Hfirst & _).
  split; [reflexivity|]. split; [exact (Hwin cA eq_refl)|].
  split; [reflexivity|exact (Hfirst cC eq_refl)].
Defined.

Lemma bonusStep_entryPoints season acc entry :
  bonusStep season acc entry = acc + entryPoints season entry.
Proof.
  destruct entry as [key count]. unfold bonusStep, entryPoints. simpl.
  destruct (Season.scoring season !! key) as [v|]; [|lia].
  destruct (Z.eqb_spec v 0) as [->|]; lia.
Qed.

Lemma fold_bonusStep season entries acc :
  fold_left (bonusStep season) entries acc
  = acc + sumZ (map (entryPoints season) entries).
Proof.
  revert acc. induction entries as [|e entries IH]; intros acc; simpl; [lia|].
  rewrite IH, bonusStep_entryPoints. lia.
Qed.

(** On a tally whose keys find an own key of [season.scoring] or nothing,
    the loop computes the integer the engine is modelled with: the sum of
    [count * scoring[key]] over the keys [season.scoring] has. *)
Lemma bonusStepJS_plain season acc entry :
  member (Season.scoring season) entry.1 ≠ Inherited →
  bonusStepJS season (Int acc) entry = Int (bonusStep season acc entry).
Proof.
  destruct entry as [key count]. unfold bonusStepJS, bonusStep, member.
  simpl. destruct (Season.scoring season !! key) as [v|].
  - intros _. by destruct (v =? 0).
  - by case_bool_decide.
Qed.

Lemma bonusPtsJS_plain season c entries :
  Contestant.bonuses c = Some entries →
  Forall (fun e => member (Season.scoring season) e.1 ≠ Inherited) entries →
  bonusPtsJS season (Some c) = Int (bonusPts season (Some c)) ∧
  bonusPts season (Some c) = sumZ (map (entryPoints season) entries).
Proof.
  intros Hb Hplain. simpl. rewrite Hb. split; [|apply fold_bonusStep].
  clear Hb. generalize 0.
  induction Hplain as [|e l He _ IH]; intros acc; [done|].
  simpl. rewrite bonusStepJS_plain by done. apply IH.
Qed.

Lemma fold_bonusStepJS_NaN season entries :
  fold_left (bonusStepJS season) entries NaN = NaN.
Proof.
  induction entries as [|[key count] l IH]; [done|]. simpl.
  destruct (member _ _) as [v| |]; [destruct (v =? 0)| |]; exact IH.
Qed.

(** A key that [season.scoring] does not have and every object inherits
    is not ignored: the bonus points are [NaN]. *)
Lemma bonusPtsJS_inherited season c entries :
  Contestant.bonuses c = Some entries →
  Exists (fun e => member (Season.scoring season) e.1 = Inherited) entries →
  bonusPtsJS season (Some c) = NaN.
Proof.
  intros Hb Hex. simpl. rewrite Hb. clear Hb. generalize (Int 0).
  induction Hex as [[key count] l He|[key count] l _ IH]; intros acc; simpl.
  - simpl in He. rewrite He.
    replace (numAdd acc NaN) with NaN by by destruct acc.
    apply fold_bonusStepJS_NaN.
  - destruct (member _ _) as [v| |]; [destruct (v =? 0)| |]; apply IH.
Qed.

(** C7.  The claim fails on the code.  The tally of Tosh has the one key
    [toString], which [season.scoring] does not have, so the claim gives
    bonus points 0 (the key is to be ignored); the code finds the
    inherited [toString] under [scoring["toString"]], takes it for a
    recognized key and computes [NaN]. *)
Theorem C7_inherited_key_not_ignored :
  Contestant.bonuses cTosh = Some [("toString"%string, 1)] ∧
  Season.scoring bonusSeason !! "toString"%string = None ∧
  sumZ (map (entryPoints bonusSeason) [("toString"%string, 1)]) = 0 ∧
  bonusPtsJS bonusSeason (Some cTosh) = NaN.
Proof.
  split; [reflexivity|]. split; [reflexivity|]. split; [reflexivity|].
  apply (bonusPtsJS_inherited bonusSeason cTosh [("toString"%string, 1)]);
    [reflexivity|].
  left. reflexivity.
Qed.

(** On the tally of Xena, whose key is one of [season.scoring], the loop
    gives the integer of the engine. *)
Example bonus_points_of_recognized_key :
  bonusPtsJS bonusSeason (Some cXena) = Int 10 ∧
  bonusPts bonusSeason (Some cXena) = 10.
Proof. split; reflexivity. Qed.

(** ** Swap selector *)

Lemma isSwapTarget_unique season pcs i c j c' :
  isSwapTarget season pcs i c → isSwapTarget season pcs j c' →
  i = j ∧ c = c'.
Proof.
  assert (Hlt : ∀ i c j c',
             isSwapTarget season pcs i c → isSwapTarget season pcs j c' →
             ¬ (i < j)%nat).
  { clear. intros i c j c' (Hi & Ei & Ai & _) (Hj & Ej & _ & Bj) Hij.
    rewrite Forall_forall in Ai, Bj.
    assert (placementPts season c' < placementPts season c).
    { apply Bj; [|done]. apply list_elem_of_lookup.
      exists i. by rewrite lookup_take_lt. }
    assert (placementPts season c ≤ placementPts season c').
    { apply Ai; [|done]. apply list_elem_of_lookup. eauto. }
    lia. }
  intros Hi Hj.
  assert (i = j) as ->.
  { pose proof (Hlt _ _ _ _ Hi Hj). pose proof (Hlt _ _ _ _ Hj Hi). lia. }
  split; [done|]. destruct Hi as [Hi _], Hj as [Hj _]. congruence.
Qed.

Lemma worstInv_step season seen c wi wp :
  worstInv season seen (wi, wp) →
  worstInv season (seen ++ [c])
    (if eliminated c && belowWorst (placementPts season c) wp
     then (Z.of_nat (length seen), Some (placementPts season c))
     else (wi, wp)).
Proof.
  intros [[[= -> ->] Hnone]|(i & t & [= -> ->] & Ht & Et & At & Bt)].
  - destruct (eliminated c) eqn:Ec; simpl.
    + right. exists (length seen), c. split; [done|].
      split; [by rewrite list_lookup_middle|]. split; [done|].
      rewrite take_app_length. split.
      * apply Forall_app. split.
        -- eapply Forall_impl; [exact Hnone|]. simpl. congruence.
        -- constructor; [intros _; lia|constructor].
      * eapply Forall_impl; [exact Hnone|]. simpl. congruence.
    + left. split; [done|]. apply Forall_app. split; [done|].
      constructor; [done|constructor].
  - assert (Hi : (i < length seen)%nat) by by eapply lookup_lt_Some.
    destruct (eliminated c) eqn:Ec; simpl.
    + destruct (Z.ltb_spec (placementPts season c) (placementPts season t))
        as [Hlt|Hge].
      * right. exists (length seen), c. split; [done|].
        split; [by rewrite list_lookup_middle|]. split; [done|].
        rewrite take_app_length. split.
        -- apply Forall_app. split.
           ++ eapply Forall_impl; [exact At|]. simpl. intros x Hx Ex.
              specialize (Hx Ex). lia.
           ++ constructor; [intros _; lia|constructor].
        -- eapply Forall_impl; [exact At|]. simpl. intros x Hx Ex.
           specialize (Hx Ex). lia.
      * right. exists i, t. split; [done|].
        split; [by rewrite lookup_app_l|]. split; [done|]. split.
        -- apply Forall_app. split; [done|].
           constructor; [intros _; lia|constructor].
        -- rewrite take_app_le by lia. done.
    + right. exists i, t. split; [done|].
      split; [by rewrite lookup_app_l|]. split; [done|]. split.
      * apply Forall_app. split; [done|].
        constructor; [congruence|constructor].
      * rewrite take_app_le by lia. done.
Qed.

Lemma worstLoop_inv season pcs seen wi wp :
  worstInv season seen (wi, wp) →
  worstInv season (seen ++ pcs)
    (worstLoop season pcs (Z.of_nat (length seen)) wi wp).
Proof.
  revert seen wi wp.
  induction pcs as [|c rest IH]; intros seen wi wp Hinv.
  - by rewrite app_nil_r.
  - pose proof (worstInv_step season seen c wi wp Hinv) as Hstep.
    cbn [worstLoop]. rewrite (cons_middle c seen rest), app_assoc.
    replace (Z.of_nat (length seen) + 1)
      with (Z.of_nat (length (seen ++ [c])))
      by (rewrite length_app; simpl; lia).
    destruct (eliminated c && belowWorst (placementPts season c) wp);
      by apply IH.
Qed.

Lemma worstLoop_spec season pcs :
  worstInv season pcs (worstLoop season pcs 0 (-1) None).
Proof.
  apply (worstLoop_inv season pcs [] (-1) None).
  left. split; [done|constructor].
Qed.

Lemma altLoop_inv season acs seen wi target :
  Forall (fun alt => totalPts season alt ≤ totalPts season target) seen →
  (altLoop season acs (Z.of_nat (length seen)) wi target = (-1, -1) ∧
   Forall (fun alt => totalPts season alt ≤ totalPts season target)
          (seen ++ acs)) ∨
  (∃ a : nat,
     altLoop season acs (Z.of_nat (length seen)) wi target
     = (wi, Z.of_nat a) ∧
     isFirstExceeding season (seen ++ acs) target a).
Proof.
  revert seen. induction acs as [|alt rest IH]; intros seen Hseen.
  - left. by rewrite app_nil_r.
  - cbn [altLoop].
    destruct (Z.ltb_spec (totalPts season target) (totalPts season alt))
      as [Hlt|Hge].
    + right. exists (length seen). split; [done|]. exists alt.
      split; [by rewrite list_lookup_middle|]. split; [done|].
      by rewrite take_app_length.
    + rewrite (cons_middle alt seen rest), app_assoc.
      replace (Z.of_nat (length seen) + 1)
        with (Z.of_nat (length (seen ++ [alt])))
        by (rewrite length_app; simpl; lia).
      apply IH. apply Forall_app. split; [done|].
      constructor; [done|constructor].
Qed.

Lemma pickAt_lookup pcs (i : nat) c :
  pcs !! i = Some c → pickAt pcs (Z.of_nat i) = c.
Proof.
  intros Hi. unfold pickAt.
  destruct (Z.ltb_spec (Z.of_nat i) 0); [lia|].
  by rewrite Nat2Z.id, Hi.
Qed.

(** The outcome of the search: either both indices stay [-1], for one of
    the three reasons of the specification, or they are the swap target
    and the first alternate that exceeds it. *)
Lemma swapSearch_spec season pcs acs :
  (swapSearch season pcs acs = (-1, -1) ∧
   (acs = [] ∨
    Forall (fun c => eliminated c = false) pcs ∨
    ∃ i c, isSwapTarget season pcs i c ∧
           Forall (fun alt => totalPts season alt ≤ totalPts season c) acs))
  ∨
  (∃ (i a : nat) c,
     swapSearch season pcs acs = (Z.of_nat i, Z.of_nat a) ∧
     isSwapTarget season pcs i c ∧ isFirstExceeding season acs c a).
Proof.
  unfold swapSearch. destruct acs as [|alt0 acs0]; [left; by eauto|].
  set (acs := alt0 :: acs0).
  replace (0 <? Z.of_nat (length acs)) with true
    by (symmetry; apply Z.ltb_lt; simpl; lia).
  destruct (worstLoop_spec season pcs)
    as [[Hw Hnone]|(i & c & Hw & Ht)]; rewrite Hw; simpl fst.
  - left. split; [done|]. by eauto.
  - replace (negb (Z.of_nat i =? -1)) with true
      by (symmetry; apply negb_true_iff, Z.eqb_neq; lia).
    rewrite (pickAt_lookup pcs i c) by apply Ht.
    destruct (altLoop_inv season acs [] (Z.of_nat i) c)
      as [[Ha Hall]|(a & Ha & Hfirst)]; [constructor| |]; simpl in *.
    + left. split; [done|]. right. right. by eauto.
    + right. exists i, a, c. done.
Qed.

Lemma finalPicks_none season pcs :
  Forall (fun p => Pick.swappedOut p = false) (finalPicks season pcs (-1)).
Proof.
  apply Forall_lookup. intros k p Hk. rewrite finalPicks_lookup in Hk.
  destruct (pcs !! k); simplify_eq/=. apply Z.eqb_neq. lia.
Qed.

Lemma activeAlts_none season acs :
  Forall (fun q => Alt.swappedIn q = false) (activeAlts season acs (-1)).
Proof.
  apply Forall_lookup. intros k q Hk. rewrite activeAlts_lookup in Hk.
  destruct (acs !! k); simplify_eq/=. apply Z.eqb_neq. lia.
Qed.

Lemma eqb_of_nat (k i : nat) :
  (Z.of_nat k =? Z.of_nat i) = bool_decide (k = i).
Proof.
  case_bool_decide as H.
  - subst. apply Z.eqb_refl.
  - apply Z.eqb_neq. lia.
Qed.

Lemma finalPicks_at season pcs (i k : nat) p :
  finalPicks season pcs (Z.of_nat i) !! k = Some p →
  Pick.swappedOut p = bool_decide (k = i).
Proof.
  rewrite finalPicks_lookup. intros Hk.
  destruct (pcs !! k); simplify_eq/=. apply eqb_of_nat.
Qed.

Lemma activeAlts_at season acs (a k : nat) q :
  activeAlts season acs (Z.of_nat a) !! k = Some q →
  Alt.swappedIn q = bool_decide (k = a).
Proof.
  rewrite activeAlts_lookup. intros Hk.
  destruct (acs !! k); simplify_eq/=. apply eqb_of_nat.
Qed.

Lemma finalPicks_length season pcs si :
  length (finalPicks season pcs si) = length pcs.
Proof. apply length_imap. Qed.

Lemma activeAlts_length season acs sa :
  length (activeAlts season acs sa) = length acs.
Proof. apply length_imap. Qed.

(** What [scorePlayer] marks, by the outcome of the search. *)
Lemma scorePlayer_swap season cmap player :
  let pcs := pickContestants cmap player in
  let acs := altContestants cmap player in
  let s := scorePlayer season cmap player in
  (noSwap s ∧
   (acs = [] ∨
    Forall (fun c => eliminated c = false) pcs ∨
    ∃ i c, isSwapTarget season pcs i c ∧
           Forall (fun alt => totalPts season alt ≤ totalPts season c) acs))
  ∨
  (∃ i a c, swapAt s i a ∧
            isSwapTarget season pcs i c ∧ isFirstExceeding season acs c a).
Proof.
  intros pcs acs s. unfold noSwap, swapAt. subst s.
  rewrite scorePlayer_picks, scorePlayer_alternates.
  fold pcs acs.
  destruct (swapSearch_spec season pcs acs)
    as [[-> Hwhy]|(i & a & c & -> & Ht & Ha)]; simpl.
  - left. split; [|done]. split; [apply finalPicks_none|apply activeAlts_none].
  - right. exists i, a, c. split; [|done].
    rewrite finalPicks_length, activeAlts_length.
    split; [eapply lookup_lt_Some, Ht|].
    split; [destruct Ha as (alt & Ha & _); eapply lookup_lt_Some, Ha|].
    split; [apply finalPicks_at|apply activeAlts_at].
Qed.

Lemma isFirstExceeding_unique season acs c a a' :
  isFirstExceeding season acs c a → isFirstExceeding season acs c a' →
  a = a'.
Proof.
  assert (Hlt : ∀ a a', isFirstExceeding season acs c a →
                        isFirstExceeding season acs c a' → ¬ (a < a')%nat).
  { clear. intros a a' (alt & Ha & Hgt & _) (alt' & _ & _ & Hbefore) Hlt.
    rewrite Forall_forall in Hbefore.
    assert (totalPts season alt ≤ totalPts season c); [|lia].
    apply Hbefore, list_elem_of_lookup. exists a. by rewrite lookup_take_lt. }
  intros H1 H2.
  pose proof (Hlt _ _ H1 H2). pose proof (Hlt _ _ H2 H1). lia.
Qed.

Lemma isFirstExceeding_not_all_le season acs c a :
  isFirstExceeding season acs c a →
  ¬ Forall (fun alt => totalPts season alt ≤ totalPts season c) acs.
Proof.
  intros (alt & Ha & Hgt & _) Hall. rewrite Forall_forall in Hall.
  assert (totalPts season alt ≤ totalPts season c); [|lia].
  apply Hall, list_elem_of_lookup. eauto.
Qed.

Lemma isSwapTarget_not_none season pcs i c :
  isSwapTarget season pcs i c →
  ¬ Forall (fun c => eliminated c = false) pcs.
Proof.
  intros (Hi & Ec & _) Hall. rewrite Forall_forall in Hall.
  assert (eliminated c = false); [|congruence].
  apply Hall, list_elem_of_lookup. eauto.
Qed.

Lemma swap_target_exists season pcs :
  Exists (fun c => eliminated c = true) pcs →
  ∃ i c, isSwapTarget season pcs i c.
Proof.
  intros Hex.
  destruct (worstLoop_spec season pcs) as [[_ Hnone]|(i & c & _ & Ht)];
    [|by eauto].
  apply Exists_exists in Hex as (c & Hc & Ec).
  rewrite Forall_forall in Hnone. specialize (Hnone c Hc). congruence.
Qed.

Lemma scorePlayer_swapAt season cmap player i c a :
  isSwapTarget season (pickContestants cmap player) i c →
  isFirstExceeding season (altContestants cmap player) c a →
  swapAt (scorePlayer season cmap player) i a.
Proof.
  intros Ht Ha.
  destruct (scorePlayer_swap season cmap player)
    as [[_ [Hnil|[Hnone|(i' & c' & Ht' & Hall)]]]|(i' & a' & c' & Hs & Ht' & Ha')].
  - destruct Ha as (alt & Ha & _). by rewrite Hnil in Ha.
  - by destruct (isSwapTarget_not_none _ _ _ _ Ht).
  - destruct (isSwapTarget_unique _ _ _ _ _ _ Ht Ht') as [-> ->].
    by destruct (isFirstExceeding_not_all_le _ _ _ _ Ha).
  - destruct (isSwapTarget_unique _ _ _ _ _ _ Ht Ht') as [-> ->].
    by rewrite (isFirstExceeding_unique _ _ _ _ _ Ha Ha').
Qed.

Lemma scorePlayer_noSwap season cmap player :
  altContestants cmap player = [] ∨
  Forall (fun c => eliminated c = false) (pickContestants cmap player) ∨
  (∃ i c, isSwapTarget season (pickContestants cmap player) i c ∧
          Forall (fun alt => totalPts season alt ≤ totalPts season c)
                 (altContestants cmap player)) →
  noSwap (scorePlayer season cmap player).
Proof.
  intros Hwhy.
  destruct (scorePlayer_swap season cmap player)
    as [[Hno _]|(i' & a' & c' & _ & Ht' & Ha')]; [done|].
  exfalso. destruct Hwhy as [Hnil|[Hnone|(i & c & Ht & Hall)]].
  - destruct Ha' as (alt & Ha & _). by rewrite Hnil in Ha.
  - by destruct (isSwapTarget_not_none _ _ _ _ Ht').
  - destruct (isSwapTarget_unique _ _ _ _ _ _ Ht Ht') as [-> ->].
    by destruct (isFirstExceeding_not_all_le _ _ _ _ Ha').
Qed.

Lemma scorePlayer_in_output season contestants subs player :
  player ∈ subs →
  scorePlayer season (contestantMap contestants) player
  ∈ computeStandings season contestants subs.
Proof. intros Hp. apply elem_of_computeStandings. eauto. Qed.

(** C2.  For every submitted player: if pick [i] is the swap target (an
    eliminated pick with the lowest placement points, the earliest such
    pick on a tie) and alternate [a] is the first alternate, in submitted
    order, whose total points strictly exceed the target's, then exactly
    pick [i] is marked [swappedOut] and exactly alternate [a] is marked
    [swappedIn]; a swap target exists as soon as some pick is eliminated;
    and if the player has no alternates, or no pick is eliminated, or no
    alternate strictly exceeds the target, then nothing is marked. *)
Theorem C2_swap_selector season contestants subs player :
  player ∈ subs →
  let cmap := contestantMap contestants in
  let pcs := pickContestants cmap player in
  let acs := altContestants cmap player in
  let s := scorePlayer season cmap player in
  s ∈ computeStandings season contestants subs ∧
  (Exists (fun c => eliminated c = true) pcs →
   ∃ i c, isSwapTarget season pcs i c) ∧
  (∀ i c a, isSwapTarget season pcs i c →
            isFirstExceeding season acs c a → swapAt s i a) ∧
  (Player.alternates player = None ∨ Player.alternates player = Some [] →
   noSwap s) ∧
  (Forall (fun c => eliminated c = false) pcs → noSwap s) ∧
  (∀ i c, isSwapTarget season pcs i c →
          Forall (fun alt => totalPts season alt ≤ totalPts season c) acs →
          noSwap s).
Proof.
  intros Hp cmap pcs acs s.
  split; [by apply scorePlayer_in_output|].
  split; [apply swap_target_exists|].
  split; [intros i c a; apply scorePlayer_swapAt|].
  split; [|split].
  - intros Hno. apply scorePlayer_noSwap. left.
    unfold altContestants. by destruct Hno as [-> | ->].
  - intros Hnone. apply scorePlayer_noSwap. by eauto.
  - intros i c Ht Hall. apply scorePlayer_noSwap. right. right. by eauto.
Qed.

Lemma C2_swap_selector_witness :
  playerA ∈ [playerA] ∧ swapAt standingA 0 0.
Proof.
  assert (Hp : playerA ∈ [playerA]) by constructor.
  split; [exact Hp|].
  apply (proj1 (proj2 (proj2
           (C2_swap_selector scenarioSeason scenarioRoster [playerA]
              playerA Hp))) 0%nat (Some cC) 0%nat).
  - split; [reflexivity|]. split; [reflexivity|].
    split; [|constructor].
    constructor; [intros _; vm_compute; discriminate|constructor].
  - exists (Some cA). split; [reflexivity|].
    split; [reflexivity|constructor].
Defined.

Lemma noSwap_not_swapOccurs s : noSwap s → ¬ swapOccurs s.
Proof.
  intros [Hp Hq] [Hex|Hex]; apply Exists_exists in Hex as (x & Hx & Hx').
  - rewrite Forall_forall in Hp. specialize (Hp x Hx). congruence.
  - rewrite Forall_forall in Hq. specialize (Hq x Hx). congruence.
Qed.

Lemma swapAt_swapOccurs s i a : swapAt s i a → swapOccurs s.
Proof.
  intros (Hi & _ & Hp & _). left.
  apply lookup_lt_is_Some in Hi as [p Hi].
  apply Exists_exists. exists p. split; [by eapply list_elem_of_lookup_2|].
  rewrite (Hp i p Hi). by apply bool_decide_eq_true.
Qed.

Lemma first_exceeding_exists season acs c :
  Exists (fun alt => totalPts season c < totalPts season alt) acs →
  ∃ a, isFirstExceeding season acs c a.
Proof.
  intros Hex.
  destruct (altLoop_inv season acs [] 0 c) as [[_ Hall]|(a & _ & Ha)];
    [constructor| |by eauto].
  simpl in Hall. apply Exists_exists in Hex as (alt & Halt & Hgt).
  rewrite Forall_forall in Hall. specialize (Hall alt Halt). lia.
Qed.

Lemma isFirstExceeding_Exists season acs c a :
  isFirstExceeding season acs c a →
  Exists (fun alt => totalPts season c < totalPts season alt) acs.
Proof.
  intros (alt & Ha & Hgt & _). apply Exists_exists. exists alt.
  split; [by eapply list_elem_of_lookup_2|done].
Qed.

(** The input on which the lowest placement points and the lowest total
    fall on different picks: placement points 2 (Xena) and 3 (Yul), totals
    12 and 3, alternate Zoe at 4, nothing swapped, total 12 + 3. *)
Example lowest_total_is_not_the_target :
  map Pick.total (Standing.picks standingXY) = [12; 3] ∧
  map Pick.placement (Standing.picks standingXY) = [2; 3] ∧
  map Alt.total (Standing.alternates standingXY) = [4] ∧
  map Pick.swappedOut (Standing.picks standingXY) = [false; false] ∧
  map Alt.swappedIn (Standing.alternates standingXY) = [false] ∧
  Standing.total standingXY = 15.
Proof. vm_compute. repeat split. Qed.

(** C3, as stated, fails: with picks Xena (placement points 2, total 12)
    and Yul (placement points 3, total 3) and alternate Zoe (total 4), Zoe
    exceeds the lowest total of an eliminated pick, yet the swap target is
    Xena and no swap occurs. *)
Lemma C3_counterexample :
  ¬ (swapOccurs standingXY ↔
     exceedsLowestTotal bonusSeason
       (pickContestants (contestantMap bonusRoster) playerXY)
       (altContestants (contestantMap bonusRoster) playerXY)).
Proof.
  intros [_ Hback].
  assert (Hno : noSwap standingXY).
  { split; vm_compute; repeat constructor. }
  apply (noSwap_not_swapOccurs _ Hno), Hback.
  exists (Some cYul). split.
  - split; [vm_compute; right; left|]. split; [reflexivity|].
    repeat constructor; intros _; vm_compute; discriminate.
  - vm_compute. left. reflexivity.
Qed.

(** C3, amended.  For every submitted player a swap occurs if and only if
    some pick is eliminated and some alternate's total points strictly
    exceed the total points of the swap target, the eliminated pick with
    the lowest placement points (the earliest such pick on a tie); when a
    swap occurs, the pick marked is that target and the alternate marked
    is the first one, in submission order, that satisfies the strict
    inequality. *)
Theorem C3_swap_iff_exceeds_target season contestants subs player :
  player ∈ subs →
  let cmap := contestantMap contestants in
  let pcs := pickContestants cmap player in
  let acs := altContestants cmap player in
  let s := scorePlayer season cmap player in
  s ∈ computeStandings season contestants subs ∧
  (swapOccurs s ↔
   Exists (fun c => eliminated c = true) pcs ∧
   exceedsSwapTarget season pcs acs) ∧
  (swapOccurs s →
   ∃ i c a, isSwapTarget season pcs i c ∧
            isFirstExceeding season acs c a ∧ swapAt s i a).
Proof.
  intros Hp cmap pcs acs s.
  split; [by apply scorePlayer_in_output|].
  assert (Hfwd : swapOccurs s →
                 ∃ i c a, isSwapTarget season pcs i c ∧
                          isFirstExceeding season acs c a ∧ swapAt s i a).
  { intros Hocc.
    destruct (scorePlayer_swap season cmap player)
      as [[Hno _]|(i & a & c & Hs & Ht & Ha)].
    - by destruct (noSwap_not_swapOccurs _ Hno).
    - exists i, c, a. done. }
  split; [split|exact Hfwd].
  - intros Hocc. destruct (Hfwd Hocc) as (i & c & a & Ht & Ha & _). split.
    + apply Exists_exists. exists c. destruct Ht as (Hi & Ec & _).
      split; [by eapply list_elem_of_lookup_2|done].
    + exists i, c. split; [done|]. by eapply isFirstExceeding_Exists.
  - intros (_ & i & c & Ht & Hex).
    destruct (first_exceeding_exists _ _ _ Hex) as [a Ha].
    eapply swapAt_swapOccurs, scorePlayer_swapAt; by eauto.
Qed.

Lemma C3_swap_iff_exceeds_target_witness :
  playerA ∈ [playerA] ∧ swapOccurs standingA.
Proof.
  assert (Hp : playerA ∈ [playerA]) by constructor.
  split; [exact Hp|].
  apply (proj2 (proj1 (proj2
           (C3_swap_iff_exceeds_target scenarioSeason scenarioRoster
              [playerA] playerA Hp)))).
  split; [left; reflexivity|].
  exists 0%nat, (Some cC). split.
  - split; [reflexivity|]. split; [reflexivity|].
    split; [|constructor].
    constructor; [intros _; vm_compute; discriminate|constructor].
  - left. reflexivity.
Defined.

(** ** At most one swap *)

Lemma marked_at_most_once {A} (f : A → bool) (l : list A) (i : nat) :
  (∀ k x, l !! k = Some x → f x = bool_decide (k = i)) →
  (length (List.filter f l) ≤ 1)%nat.
Proof.
  revert i. induction l as [|x l IH]; intros i Hmark; simpl; [lia|].
  destruct i as [|i].
  - assert (Hrest : List.filter f l = []).
    { clear IH. assert (Hl : ∀ k y, l !! k = Some y → f y = false).
      { intros k y Hk. apply (Hmark (S k) y Hk). }
      clear Hmark. induction l as [|y l IHl]; [done|]. simpl.
      rewrite (Hl 0%nat y eq_refl). apply IHl.
      intros k z Hk. apply (Hl (S k) z Hk). }
    rewrite Hrest. destruct (f x); simpl; lia.
  - rewrite (Hmark 0%nat x eq_refl). simpl. apply (IH i).
    intros k y Hk. rewrite (Hmark (S k) y Hk).
    apply bool_decide_ext. lia.
Qed.

Lemma unmarked_filter_nil {A} (f : A → bool) (l : list A) :
  Forall (fun x => f x = false) l → List.filter f l = [].
Proof. induction 1 as [|x l Hx _ IH]; simpl; [done|]. by rewrite Hx. Qed.

Lemma scorePlayer_at_most_one season cmap player :
  (swappedOutCount (scorePlayer season cmap player) ≤ 1)%nat ∧
  (swappedInCount (scorePlayer season cmap player) ≤ 1)%nat.
Proof.
  unfold swappedOutCount, swappedInCount.
  destruct (scorePlayer_swap season cmap player)
    as [[[Hp Hq] _]|(i & a & c & (_ & _ & Hp & Hq) & _)].
  - rewrite (unmarked_filter_nil _ _ Hp), (unmarked_filter_nil _ _ Hq).
    simpl. lia.
  - split; by eapply marked_at_most_once.
Qed.

(** C8.  Every standing of the output has at most one pick marked
    [swappedOut] and at most one alternate marked [swappedIn]; it comes
    from a submission with as many alternates as it has, and when that
    number is zero every pick has [swappedOut = false] and no alternate is
    swapped in. *)
Theorem C8_at_most_one_swap season contestants subs s :
  s ∈ computeStandings season contestants subs →
  (swappedOutCount s ≤ 1)%nat ∧
  (swappedInCount s ≤ 1)%nat ∧
  (∃ player, player ∈ subs ∧
     Standing.name s = Player.name player ∧
     length (Standing.alternates s)
     = length (default [] (Player.alternates player))) ∧
  (length (Standing.alternates s) = 0%nat → noSwap s).
Proof.
  intros Hs. apply elem_of_computeStandings in Hs as (player & Hp & ->).
  destruct (scorePlayer_at_most_one season (contestantMap contestants) player)
    as [Hout Hin].
  assert (Hlen : length (Standing.alternates
                   (scorePlayer season (contestantMap contestants) player))
                 = length (default [] (Player.alternates player))).
  { rewrite scorePlayer_alternates, activeAlts_length.
    unfold altContestants. by rewrite length_map. }
  split; [done|]. split; [done|]. split.
  - exists player. split; [done|]. split; [apply scorePlayer_name|done].
  - intros Hzero. apply scorePlayer_noSwap. left.
    rewrite scorePlayer_alternates, activeAlts_length in Hzero.
    by apply nil_length_inv.
Qed.

Lemma C8_at_most_one_swap_witness :
  standingA ∈ computeStandings scenarioSeason scenarioRoster [playerA] ∧
  (swappedOutCount standingA ≤ 1)%nat ∧ (swappedInCount standingA ≤ 1)%nat.
Proof.
  assert (H : standingA
              ∈ computeStandings scenarioSeason scenarioRoster [playerA])
    by (vm_compute; constructor).
  split; [exact H|].
  pose proof (C8_at_most_one_swap scenarioSeason scenarioRoster [playerA]
                standingA H) as (Hout & Hin & _).
  split; [exact Hout|exact Hin].
Defined.

(** ** An alternate that is still in the game *)

(** C10.  The choice of the alternate looks at total points only: when
    pick [i] is the swap target and alternate [a] is a contestant without
    placement whose bonus points strictly exceed the target's total, while
    no earlier alternate exceeds it, alternate [a] is marked [swappedIn]
    and pick [i] [swappedOut], although the alternate is not eliminated. *)
Theorem C10_active_alternate_swapped_in
    season contestants subs player i c a alt :
  player ∈ subs →
  let cmap := contestantMap contestants in
  let pcs := pickContestants cmap player in
  let acs := altContestants cmap player in
  let s := scorePlayer season cmap player in
  isSwapTarget season pcs i c →
  acs !! a = Some (Some alt) →
  Contestant.placement alt = None →
  totalPts season c < bonusPts season (Some alt) →
  Forall (fun alt' => totalPts season alt' ≤ totalPts season c)
         (take a acs) →
  s ∈ computeStandings season contestants subs ∧
  eliminated (Some alt) = false ∧
  swapAt s i a ∧
  (∃ q, Standing.alternates s !! a = Some q ∧
        Alt.contestant q = Some alt ∧ Alt.swappedIn q = true ∧
        Alt.total q = bonusPts season (Some alt)) ∧
  (∃ p, Standing.picks s !! i = Some p ∧
        Pick.contestant p = c ∧ Pick.swappedOut p = true).
Proof.
  intros Hp cmap pcs acs s Ht Ha Hpl Hgt Hbefore.
  assert (Htot : totalPts season (Some alt) = bonusPts season (Some alt)).
  { unfold totalPts. simpl. rewrite Hpl. lia. }
  assert (Hs : swapAt s i a).
  { apply (scorePlayer_swapAt season cmap player i c a Ht).
    exists (Some alt). split; [done|]. split; [lia|done]. }
  split; [by apply scorePlayer_in_output|].
  split; [simpl; rewrite Hpl; apply bool_decide_eq_false; by intros H|].
  split; [done|]. destruct Hs as (_ & _ & Hmp & Hmq).
  unfold s, pcs, acs in *. split.
  - pose proof (activeAlts_lookup season (altContestants cmap player)
                  (swapSearch season (pickContestants cmap player)
                     (altContestants cmap player)).2 a) as Hq.
    rewrite Ha in Hq. simpl in Hq.
    rewrite <- (scorePlayer_alternates season cmap player) in Hq.
    eexists. split; [exact Hq|]. split; [done|].
    split; [|exact Htot].
    rewrite (Hmq a _ Hq). by apply bool_decide_eq_true.
  - pose proof (finalPicks_lookup season (pickContestants cmap player)
                  (swapSearch season (pickContestants cmap player)
                     (altContestants cmap player)).1 i) as Hpk.
    destruct Ht as (Hi & _). rewrite Hi in Hpk. simpl in Hpk.
    rewrite <- (scorePlayer_picks season cmap player) in Hpk.
    eexists. split; [exact Hpk|]. split; [done|].
    rewrite (Hmp i _ Hpk). by apply bool_decide_eq_true.
Qed.

(** Vic scored 1 and is replaced by Wes, who is still in the game and
    has 10 bonus points. *)
Example active_alternate_replaces_pick :
  map (fun p => (Pick.total p, Pick.swappedOut p)) (Standing.picks standingVW)
  = [(1, true)] ∧
  map (fun q => (Alt.placement q, Alt.total q, Alt.swappedIn q))
      (Standing.alternates standingVW)
  = [(0, 10, true)] ∧
  Standing.total standingVW = 10.
Proof. vm_compute. repeat split. Qed.

Lemma C10_active_alternate_swapped_in_witness :
  playerVW ∈ [playerVW] ∧
  Contestant.placement cWesIn = None ∧
  swapAt standingVW 0 0 ∧
  Alt.contestant <$> Standing.alternates standingVW !! 0%nat
  = Some (Some cWesIn).
Proof.
  assert (Hp : playerVW ∈ [playerVW]) by constructor.
  split; [exact Hp|]. split; [reflexivity|].
  destruct (C10_active_alternate_swapped_in bonusSeason midSeasonRoster
              [playerVW] playerVW 0%nat (Some cVic) 0%nat cWesIn Hp)
    as (_ & _ & Hs & _ & _).
  - split; [reflexivity|]. split; [reflexivity|].
    split; [|constructor].
    constructor; [intros _; vm_compute; discriminate|constructor].
  - reflexivity.
  - reflexivity.
  - reflexivity.
  - constructor.
  - split; [exact Hs|reflexivity].
Defined.

(** ** Bonus evaluator *)

Lemma hasPlacement_existsb k roster :
  hasPlacement k roster ↔ existsb (placedAt k) roster = true.
Proof.
  rewrite existsb_exists. unfold hasPlacement. split.
  - intros (c & Hc & Hk). exists (Some c).
    split; [by apply list_elem_of_In|]. simpl. by apply bool_decide_eq_true.
  - intros ([c|] & Hc & Hk); [|done]. exists c.
    split; [by apply list_elem_of_In|]. by apply bool_decide_eq_true in Hk.
Qed.

Lemma bonusAwardStep_eq season w r c :
  bonusAwardStep season (w, r) c
  = (if placedAt 1 c && truthy (Season.scoring season !! "winnerBonus"%string)
     then default 0 (Season.scoring season !! "winnerBonus"%string) else w,
     if placedAt 2 c && truthy (Season.scoring season !! "runnerUpBonus"%string)
     then default 0 (Season.scoring season !! "runnerUpBonus"%string) else r).
Proof.
  destruct c as [c|]; [|done]. unfold bonusAwardStep, placedAt.
  by destruct (_ && _), (_ && _).
Qed.

Lemma awardBonuses_fold season l w r :
  fold_left (bonusAwardStep season) l (w, r)
  = (if existsb (placedAt 1) l
        && truthy (Season.scoring season !! "winnerBonus"%string)
     then default 0 (Season.scoring season !! "winnerBonus"%string) else w,
     if existsb (placedAt 2) l
        && truthy (Season.scoring season !! "runnerUpBonus"%string)
     then default 0 (Season.scoring season !! "runnerUpBonus"%string) else r).
Proof.
  revert w r. induction l as [|c l IH]; intros w r; [done|].
  cbn [fold_left existsb]. rewrite bonusAwardStep_eq, IH.
  by destruct (placedAt 1 c), (placedAt 2 c), (existsb (placedAt 1) l),
       (existsb (placedAt 2) l), (truthy _), (truthy _).
Qed.

Lemma scorePlayer_bonuses season cmap player :
  let s := scorePlayer season cmap player in
  (Standing.winnerBonus s, Standing.runnerUpBonus s)
  = awardBonuses season (activeRoster s).
Proof.
  unfold scorePlayer, activeRoster.
  destruct (swapSearch _ _ _) as [si sa]. simpl.
  destruct (awardBonuses _ _) as [w r] eqn:E. simpl. by rewrite E.
Qed.

Lemma truthy_Some w : w ≠ 0 → truthy (Some w) = true.
Proof. intros Hw. simpl. by apply negb_true_iff, Z.eqb_neq. Qed.

(** The array [activePicks] of the code holds the contestants of the picks
    that are not swapped out and of the alternates that are swapped in,
    and no others. *)
Lemma activeHasPlacement_activePicks k s :
  activeHasPlacement k s ↔ hasPlacement k (activeRoster s).
Proof.
  unfold activeHasPlacement, hasPlacement, activeRoster, activePicks. split.
  - intros [(p & c & Hp & Hout & Hc & Hk)|(q & c & Hq & Hin & Hc & Hk)];
      exists c; (split; [|done]); apply elem_of_app; [left|right];
      rewrite <- Hc; apply list_elem_of_In, in_map, filter_In.
    + split; [by apply list_elem_of_In|by rewrite Hout].
    + split; [by apply list_elem_of_In|done].
  - intros (c & Hc & Hk).
    apply elem_of_app in Hc as [Hc|Hc];
      apply list_elem_of_In, in_map_iff in Hc as (x & Hx & Hin);
      apply filter_In in Hin as [Hin Hmark]; [left|right];
      exists x, c; (split; [by apply list_elem_of_In|]).
    + split; [by destruct (Pick.swappedOut x)|done].
    + done.
Qed.

(** C5.  For every standing of the output: when a pick that is not
    swapped out, or the alternate that is swapped in, has a contestant of
    placement 1 and [scoring.winnerBonus] is configured and not 0,
    [winnerBonus] is [scoring.winnerBonus], once, however many active
    contestants have placement 1; when no such pick or alternate has
    placement 1 (a swapped-out pick and an unused alternate do not count),
    or the key is absent or 0, it is 0.  The same holds of [runnerUpBonus]
    with placement 2 and [scoring.runnerUpBonus]; neither bonus depends on
    the other, and both are awarded when both conditions hold. *)
Theorem C5_winner_runner_up_bonus season contestants subs s :
  s ∈ computeStandings season contestants subs →
  (∀ w, activeHasPlacement 1 s →
        Season.scoring season !! "winnerBonus"%string = Some w → w ≠ 0 →
        Standing.winnerBonus s = w) ∧
  (¬ activeHasPlacement 1 s ∨
   Season.scoring season !! "winnerBonus"%string = None ∨
   Season.scoring season !! "winnerBonus"%string = Some 0 →
   Standing.winnerBonus s = 0) ∧
  (∀ r, activeHasPlacement 2 s →
        Season.scoring season !! "runnerUpBonus"%string = Some r → r ≠ 0 →
        Standing.runnerUpBonus s = r) ∧
  (¬ activeHasPlacement 2 s ∨
   Season.scoring season !! "runnerUpBonus"%string = None ∨
   Season.scoring season !! "runnerUpBonus"%string = Some 0 →
   Standing.runnerUpBonus s = 0) ∧
  (∀ w r, activeHasPlacement 1 s → activeHasPlacement 2 s →
          Season.scoring season !! "winnerBonus"%string = Some w → w ≠ 0 →
          Season.scoring season !! "runnerUpBonus"%string = Some r → r ≠ 0 →
          Standing.winnerBonus s = w ∧ Standing.runnerUpBonus s = r).
Proof.
  intros Hs. apply elem_of_computeStandings in Hs as (player & _ & ->).
  pose proof (scorePlayer_bonuses season (contestantMap contestants) player)
    as Heq.
  simpl in Heq. unfold awardBonuses in Heq.
  rewrite awardBonuses_fold in Heq. injection Heq as Hw Hr.
  set (s := scorePlayer season (contestantMap contestants) player) in *.
  assert (Hwin : ∀ w, activeHasPlacement 1 s →
                   Season.scoring season !! "winnerBonus"%string = Some w →
                   w ≠ 0 → Standing.winnerBonus s = w).
  { intros w Hhas HW Hne. rewrite Hw.
    apply activeHasPlacement_activePicks, hasPlacement_existsb in Hhas.
    rewrite Hhas, HW. by rewrite truthy_Some. }
  assert (Hrun : ∀ r, activeHasPlacement 2 s →
                   Season.scoring season !! "runnerUpBonus"%string = Some r →
                   r ≠ 0 → Standing.runnerUpBonus s = r).
  { intros r Hhas HR Hne. rewrite Hr.
    apply activeHasPlacement_activePicks, hasPlacement_existsb in Hhas.
    rewrite Hhas, HR. by rewrite truthy_Some. }
  split; [exact Hwin|]. split; [|split; [exact Hrun|split]].
  - intros [Hno|[HW|HW]]; rewrite Hw.
    + rewrite activeHasPlacement_activePicks, hasPlacement_existsb in Hno.
      by destruct (existsb (placedAt 1) (activeRoster s)).
    + rewrite HW. by rewrite andb_false_r.
    + rewrite HW. by rewrite andb_false_r.
  - intros [Hno|[HR|HR]]; rewrite Hr.
    + rewrite activeHasPlacement_activePicks, hasPlacement_existsb in Hno.
      by destruct (existsb (placedAt 2) (activeRoster s)).
    + rewrite HR. by rewrite andb_false_r.
    + rewrite HR. by rewrite andb_false_r.
  - intros w r H1 H2 HW Hw0 HR Hr0. split; [by apply Hwin|by apply Hrun].
Qed.

Lemma C5_winner_runner_up_bonus_witness :
  standingA ∈ computeStandings scenarioSeason scenarioRoster [playerA] ∧
  activeHasPlacement 1 standingA ∧
  Standing.winnerBonus standingA = 5.
Proof.
  assert (H : standingA
              ∈ computeStandings scenarioSeason scenarioRoster [playerA])
    by (vm_compute; constructor).
  assert (Hact : activeHasPlacement 1 standingA).
  { right. exists (Alt.mk (Some cA) 3 0 3 true), cA.
    split; [vm_compute; constructor|]. by repeat split. }
  split; [exact H|]. split; [exact Hact|].
  apply (proj1 (C5_winner_runner_up_bonus scenarioSeason scenarioRoster
                  [playerA] standingA H) 5 Hact).
  - reflexivity.
  - lia.
Defined.

(** A winner that is swapped out earns no winner bonus: the only pick is
    the winner, the alternate has more points and replaces him. *)
Example swapped_out_winner_no_bonus :
  map (fun s => (map (fun p => (Pick.contestant p, Pick.swappedOut p))
                     (Standing.picks s),
                 Standing.winnerBonus s))
      (computeStandings
         (Season.mk 5 (<["immunityWin"%string := 2]>
                       (<["winnerBonus"%string := 5]> ∅)))
         [cIda; cXena; cYul; cZoe; cWes] [playerWesIda])
  = [([(Some cWes, true)], 0)].
Proof. vm_compute. reflexivity. Qed.

(** Both bonuses go to a player who has the winner and the runner-up. *)
Example both_bonuses_awarded :
  map (fun s => (Standing.winnerBonus s, Standing.runnerUpBonus s,
                 Standing.total s))
      (computeStandings scenarioSeason scenarioRoster [playerAB])
  = [(5, 2, 12)].
Proof. vm_compute. reflexivity. Qed.

(** Two active contestants at placement 1 still give one winner bonus. *)
Example winner_bonus_once :
  map (fun s => (Standing.winnerBonus s, Standing.total s))
      (computeStandings scenarioSeason (cA' :: scenarioRoster) [playerAA])
  = [(5, 11)].
Proof. vm_compute. reflexivity. Qed.

(** ** Names without a contestant *)

Lemma lookup_map {A B} (f : A → B) (l : list A) (k : nat) :
  map f l !! k = f <$> l !! k.
Proof.
  revert k. induction l as [|x l IH]; intros [|k]; simpl; done.
Qed.

Lemma contestantMap_fold_None contestants (m : gmap string Contestant.t) nm :
  m !! nm = None →
  nm ∉ map Contestant.name contestants →
  fold_left (fun m c => <[Contestant.name c := c]> m) contestants m !! nm
  = None.
Proof.
  revert m. induction contestants as [|c cs IH]; intros m Hm Hnm; [done|].
  simpl in *. apply not_elem_of_cons in Hnm as [Hne Hnm].
  apply IH; [|done]. by rewrite lookup_insert_ne.
Qed.

Lemma contestantMap_lookup_None contestants nm :
  nm ∉ map Contestant.name contestants →
  contestantMap contestants !! nm = None.
Proof. apply contestantMap_fold_None. apply lookup_empty. Qed.

Lemma scorePlayer_absent_pick season cmap player (k : nat) nm :
  Player.picks player !! k = Some nm → cmap !! nm = None →
  Standing.picks (scorePlayer season cmap player) !! k
  = Some (Pick.mk None 0 0 0 false).
Proof.
  intros Hk Hnm.
  assert (Hpc : pickContestants cmap player !! k = Some None).
  { unfold pickContestants. by rewrite lookup_map, Hk, <- Hnm. }
  pose proof (scorePlayer_picks season cmap player) as Hpicks.
  assert (Hp : Standing.picks (scorePlayer season cmap player) !! k
               = Some (Pick.mk None 0 0 0
                   (Z.of_nat k =? (swapSearch season
                      (pickContestants cmap player)
                      (altContestants cmap player)).1))).
  { by rewrite Hpicks, finalPicks_lookup, Hpc. }
  rewrite Hp. do 2 f_equal.
  destruct (scorePlayer_swap season cmap player)
    as [[[Hno _] _]|(i & a & c & (_ & _ & Hmark & _) & (Hi & Ec & _) & _)].
  - rewrite Forall_lookup in Hno. apply (Hno k _ Hp).
  - pose proof (Hmark k _ Hp) as Hm. simpl in Hm. rewrite Hm.
    apply bool_decide_eq_false. intros ->.
    rewrite Hpc in Hi. by simplify_eq.
Qed.

Lemma scorePlayer_absent_alt season cmap player (k : nat) nm :
  default [] (Player.alternates player) !! k = Some nm → cmap !! nm = None →
  ∃ q, Standing.alternates (scorePlayer season cmap player) !! k = Some q ∧
       Alt.contestant q = None ∧ Alt.placement q = 0 ∧
       Alt.bonus q = 0 ∧ Alt.total q = 0.
Proof.
  intros Hk Hnm.
  assert (Hac : altContestants cmap player !! k = Some None).
  { unfold altContestants. by rewrite lookup_map, Hk, <- Hnm. }
  rewrite scorePlayer_alternates, activeAlts_lookup, Hac.
  eexists. split; [reflexivity|]. done.
Qed.

(** C9.  [computeStandings] is a total function; the names of its output
    are the names of the submissions, each as often as it was submitted,
    so the output has one standing per submission.  A name that is not in
    the roster resolves to no contestant, whose placement, bonus and total
    points are 0; as a pick it is scored 0 and is never the swap target, so
    it is not swapped out; as an alternate it is scored 0. *)
Theorem C9_total_on_unknown_names season contestants subs :
  map Standing.name (computeStandings season contestants subs)
    ≡ₚ map Player.name subs ∧
  length (computeStandings season contestants subs) = length subs ∧
  (placementPts season None = 0 ∧ bonusPts season None = 0 ∧
   totalPts season None = 0) ∧
  (∀ nm, nm ∉ map Contestant.name contestants →
         contestantMap contestants !! nm = None) ∧
  (∀ s, s ∈ computeStandings season contestants subs →
     ∃ player, player ∈ subs ∧ Standing.name s = Player.name player ∧
       (∀ (k : nat) nm,
          Player.picks player !! k = Some nm →
          nm ∉ map Contestant.name contestants →
          Standing.picks s !! k = Some (Pick.mk None 0 0 0 false)) ∧
       (∀ (k : nat) nm,
          default [] (Player.alternates player) !! k = Some nm →
          nm ∉ map Contestant.name contestants →
          ∃ q, Standing.alternates s !! k = Some q ∧
               Alt.contestant q = None ∧ Alt.placement q = 0 ∧
               Alt.bonus q = 0 ∧ Alt.total q = 0)).
Proof.
  assert (Hnames : map Standing.name (computeStandings season contestants subs)
                     ≡ₚ map Player.name subs).
  { rewrite computeStandings_perm, map_map.
    erewrite map_ext; [done|]. intros player. apply scorePlayer_name. }
  split; [exact Hnames|]. split.
  { rewrite computeStandings_perm. apply length_map. }
  split; [done|]. split; [apply contestantMap_lookup_None|].
  intros s Hs. apply elem_of_computeStandings in Hs as (player & Hp & ->).
  exists player. split; [done|]. split; [apply scorePlayer_name|]. split.
  - intros k nm Hk Hnm. eapply scorePlayer_absent_pick; [done|].
    by apply contestantMap_lookup_None.
  - intros k nm Hk Hnm. eapply scorePlayer_absent_alt; [done|].
    by apply contestantMap_lookup_None.
Qed.

(** The unknown pick stays at 0 and unswapped while the known pick is
    replaced by the alternate. *)
Example unknown_pick_scored :
  map (fun s => (map (fun p => (Pick.total p, Pick.swappedOut p))
                     (Standing.picks s),
                 map Alt.swappedIn (Standing.alternates s),
                 Standing.total s))
      (computeStandings scenarioSeason scenarioRoster [playerGhost])
  = [([(0, false); (1, true)], [true], 8)].
Proof. vm_compute. reflexivity. Qed.

Lemma C9_total_on_unknown_names_witness :
  ("Nobody"%string ∉ map Contestant.name scenarioRoster) ∧
  (∀ s, s ∈ computeStandings scenarioSeason scenarioRoster [playerGhost] →
        Standing.picks s !! 0%nat = Some (Pick.mk None 0 0 0 false)).
Proof.
  assert (Hnm : "Nobody"%string ∉ map Contestant.name scenarioRoster).
  { rewrite list_elem_of_In. simpl. intros [H|[H|[H|[]]]]; discriminate. }
  split; [exact Hnm|]. intros s Hs.
  destruct (C9_total_on_unknown_names scenarioSeason scenarioRoster
              [playerGhost]) as (_ & _ & _ & _ & Hall).
  destruct (Hall s Hs) as (player & Hp & _ & Hpicks & _).
  apply list_elem_of_singleton in Hp. subst player.
  exact (Hpicks 0%nat "Nobody"%string eq_refl Hnm).
Defined.

(** * The views that read the standings *)





Lemma find_name_None {A} (nameOf : A → string) (l : list A) nm :
  List.find (fun x => String.eqb (nameOf x) nm) l = None ↔
  nm ∉ map nameOf l.
Proof.
  induction l as [|x l IH]; simpl.
  - split; [intros _; apply not_elem_of_nil|done].
  - destruct (String.eqb_spec (nameOf x) nm) as [->|Hne].
    + split; [done|]. intros Hnot. destruct Hnot. by left.
    + rewrite IH, not_elem_of_cons.
      split; [intros H; split; [by intros ->|done]|by intros [_ H]].
Qed.

Lemma find_name_NoDup {A} (nameOf : A → string) (l : list A) x :
  NoDup (map nameOf l) → x ∈ l →
  List.find (fun y => String.eqb (nameOf y) (nameOf x)) l = Some x.
Proof.
  induction l as [|y l IH]; simpl; intros Hnd Hx.
  - by apply elem_of_nil in Hx.
  - apply NoDup_cons in Hnd as [Hy Hnd].
    apply elem_of_cons in Hx as [->|Hx]; [by rewrite String.eqb_refl|].
    destruct (String.eqb_spec (nameOf y) (nameOf x)) as [Heq|_];
      [|by apply IH].
    destruct Hy. rewrite Heq. apply list_elem_of_In, in_map.
    by apply list_elem_of_In.
Qed.

Lemma computeStandings_names season contestants subs :
  map Standing.name (computeStandings season contestants subs)
  ≡ₚ map Player.name subs.
Proof.
  rewrite computeStandings_perm, map_map.
  erewrite map_ext; [done|]. intros player. apply scorePlayer_name.
Qed.

(** X2.  The player page finds no standing exactly when no submission has
    the requested name; a standing it finds carries that name and is the
    scored submission of a player of that name; and when the submitted
    names are distinct, every submitted player's page shows that player's
    own standing. *)
Theorem findResult_by_name season contestants subs :
  (∀ playerName,
     findResult season contestants subs playerName = None ↔
     playerName ∉ map Player.name subs) ∧
  (∀ playerName r,
     findResult season contestants subs playerName = Some r →
     Standing.name r = playerName ∧
     ∃ player, player ∈ subs ∧ Player.name player = playerName ∧
               r = scorePlayer season (contestantMap contestants) player) ∧
  (NoDup (map Player.name subs) →
   ∀ player, player ∈ subs →
     findResult season contestants subs (Player.name player)
     = Some (scorePlayer season (contestantMap contestants) player)).
Proof.
  unfold findResult. split; [|split].
  - intros playerName. rewrite (find_name_None Standing.name).
    by rewrite computeStandings_names.
  - intros playerName r Hfind. apply find_some in Hfind as [Hin Hname].
    apply String.eqb_eq in Hname. split; [done|].
    apply list_elem_of_In, elem_of_computeStandings in Hin
      as (player & Hp & ->).
    exists player. split; [done|]. split; [|done].
    by rewrite scorePlayer_name in Hname.
  - intros Hnd player Hp.
    rewrite <- (scorePlayer_name season (contestantMap contestants) player).
    apply (find_name_NoDup Standing.name).
    + by rewrite computeStandings_names.
    + by apply scorePlayer_in_output.
Qed.

Lemma findResult_by_name_witness :
  NoDup (map Player.name [playerB; playerA]) ∧
  findResult scenarioSeason scenarioRoster [playerB; playerA] "p" = Some standingA.
Proof.
  assert (Hnd : NoDup (map Player.name [playerB; playerA])).
  { simpl. apply NoDup_cons. split.
    - intros H. apply list_elem_of_singleton in H. discriminate.
    - apply NoDup_singleton. }
  split; [exact Hnd|].
  apply (proj2 (proj2 (findResult_by_name scenarioSeason scenarioRoster
                         [playerB; playerA])) Hnd playerA).
  right. left.
Defined.

(** X3.  The elimination timeline lists exactly the contestants of the
    roster that have a placement, each as often as the roster has it, in
    descending order of placement (first out first); contestants with the
    same placement keep their roster order. *)
Theorem eliminationOrder_sorted contestants :
  eliminationOrder contestants
    ≡ₚ List.filter (fun c => eliminated (Some c)) contestants ∧
  (∀ c, c ∈ eliminationOrder contestants ↔
        c ∈ contestants ∧ Contestant.placement c ≠ None) ∧
  StronglySorted (fun a b => placementNum b ≤ placementNum a)
                 (eliminationOrder contestants) ∧
  (∀ t, List.filter (fun c => placementNum c =? t)
                    (eliminationOrder contestants)
        = List.filter (fun c => placementNum c =? t)
            (List.filter (fun c => eliminated (Some c)) contestants)).
Proof.
  unfold eliminationOrder. split; [apply sortBy_perm|]. split; [|split].
  - intros c. rewrite sortBy_perm, list_elem_of_In, filter_In.
    rewrite <- list_elem_of_In. simpl. by rewrite bool_decide_eq_true.
  - by apply (sortBy_sorted byPlacementDesc placementNum).
  - intros t. by apply (sortBy_stable byPlacementDesc placementNum).
Qed.

(** ** [ordinal] *)

Lemma ordinalSuffix_rem n : ordinalSuffix n = ordinalSuffix (Z.rem n 100).
Proof. unfold ordinalSuffix. cbv zeta. by rewrite Z.rem_rem. Qed.

Lemma englishSuffix_mod n : englishSuffix n = englishSuffix (n mod 100).
Proof.
  unfold englishSuffix.
  rewrite (Z.mod_mod_divide n 100 10) by (by exists 10).
  by rewrite Z.mod_mod.
Qed.

Lemma ordinalSuffix_residues :
  forallb (fun k => String.eqb (ordinalSuffix (Z.of_nat k))
                               (englishSuffix (Z.of_nat k)))
          (seq 0 100) = true.
Proof. vm_compute. reflexivity. Qed.

Lemma ordinalSuffix_negative_residues :
  forallb (fun k => String.eqb (ordinalSuffix (- Z.of_nat k)) "th")
          (seq 0 100) = true.
Proof. vm_compute. reflexivity. Qed.

(** X4.  For an integer that is not negative, [ordinal] appends [st] when
    the number ends in 1 but not in 11, [nd] when it ends in 2 but not in
    12, [rd] when it ends in 3 but not in 13, and [th] otherwise; a
    negative integer always gets [th]. *)
Theorem ordinal_english_rule n :
  - maxSafeInteger ≤ n ≤ maxSafeInteger →
  (0 ≤ n → ordinal (Some n) = (decimal n ++ englishSuffix n)%string) ∧
  (n < 0 → ordinal (Some n) = (decimal n ++ "th")%string).
Proof.
  intros _. split; intros Hn; simpl; f_equal; rewrite ordinalSuffix_rem.
  - rewrite englishSuffix_mod, Z.rem_mod_nonneg by lia.
    pose proof (Z.mod_pos_bound n 100 ltac:(lia)) as Hv.
    pose proof ordinalSuffix_residues as Hall.
    rewrite forallb_forall in Hall.
    specialize (Hall (Z.to_nat (n mod 100))).
    rewrite Z2Nat.id in Hall by lia.
    apply String.eqb_eq, Hall, in_seq. lia.
  - pose proof (Z.rem_bound_pos_neg n 100 ltac:(lia) ltac:(lia)) as Hv.
    pose proof ordinalSuffix_negative_residues as Hall.
    rewrite forallb_forall in Hall.
    specialize (Hall (Z.to_nat (- Z.rem n 100))).
    rewrite Z2Nat.id, Z.opp_involutive in Hall by lia.
    apply String.eqb_eq, Hall, in_seq. lia.
Qed.

Lemma ordinal_english_rule_witness :
  0 ≤ 21 ∧ ordinal (Some 21) = "21st"%string ∧
  0 ≤ 112 ∧ ordinal (Some 112) = "112th"%string.
Proof.
  assert (H21 : - maxSafeInteger ≤ 21 ≤ maxSafeInteger)
    by (vm_compute; split; discriminate).
  assert (H112 : - maxSafeInteger ≤ 112 ≤ maxSafeInteger)
    by (vm_compute; split; discriminate).
  split; [lia|].
  split; [exact (proj1 (ordinal_english_rule 21 H21) ltac:(lia))|].
  split; [lia|exact (proj1 (ordinal_english_rule 112 H112) ltac:(lia))].
Defined.

(** * Loading the picks of a season *)

Section MapSet.
Context {V : Type}.
Implicit Types (m : list (string * V)) (k : string) (v : V).

Lemma mapSet_keys k v m k' :
  k' ∈ map fst (mapSet k v m) ↔ k' = k ∨ k' ∈ map fst m.
Proof.
  induction m as [|[k0 v0] m IH]; simpl.
  - rewrite list_elem_of_singleton. split; [by left|].
    intros [->|H]; [done|by apply elem_of_nil in H].
  - destruct (String.eqb_spec k0 k) as [->|Hne]; simpl.
    + rewrite !elem_of_cons. tauto.
    + rewrite !elem_of_cons, IH. tauto.
Qed.

Lemma mapSet_NoDup k v m :
  NoDup (map fst m) → NoDup (map fst (mapSet k v m)).
Proof.
  induction m as [|[k0 v0] m IH]; simpl; intros Hnd.
  - apply NoDup_singleton.
  - apply NoDup_cons in Hnd as [Hk0 Hnd].
    destruct (String.eqb_spec k0 k) as [->|Hne]; simpl.
    + by apply NoDup_cons.
    + apply NoDup_cons. split; [|by apply IH].
      rewrite mapSet_keys. intros [->|H]; done.
Qed.

Lemma mapSet_find k v m k' :
  List.find (fun e => String.eqb e.1 k') (mapSet k v m)
  = if String.eqb k k' then Some (k, v)
    else List.find (fun e => String.eqb e.1 k') m.
Proof.
  induction m as [|[k0 v0] m IH]; simpl.
  - by destruct (String.eqb k k').
  - destruct (String.eqb_spec k0 k) as [->|Hne]; simpl.
    + by destruct (String.eqb k k').
    + rewrite IH. destruct (String.eqb_spec k0 k') as [->|Hne']; [|done].
      by destruct (String.eqb_spec k k') as [->|_].
Qed.
End MapSet.

Lemma lastNamed_cons nm p l :
  lastNamed nm (p :: l)
  = match lastNamed nm l with
    | Some q => Some q
    | None => if String.eqb (Player.name p) nm then Some p else None
    end.
Proof.
  unfold lastNamed. simpl rev.
  induction (rev l) as [|q r IH]; simpl; [done|].
  by destruct (String.eqb (Player.name q) nm).
Qed.

Lemma mergeFold_find nm l m :
  List.find (fun e : string * Player.t => String.eqb e.1 nm)
            (fold_left (fun m p => mapSet (Player.name p) p m) l m)
  = match lastNamed nm l with
    | Some p => Some (Player.name p, p)
    | None => List.find (fun e : string * Player.t => String.eqb e.1 nm) m
    end.
Proof.
  revert m. induction l as [|p l IH]; intros m; [done|].
  cbn [fold_left]. rewrite IH, lastNamed_cons, mapSet_find.
  destruct (lastNamed nm l); [done|].
  by destruct (String.eqb (Player.name p) nm).
Qed.

Lemma mergeFold_NoDup l (m : list (string * Player.t)) :
  NoDup (map fst m) →
  NoDup (map fst (fold_left (fun m p => mapSet (Player.name p) p m) l m)).
Proof.
  revert m. induction l as [|p l IH]; intros m Hnd; [done|].
  cbn [fold_left]. by apply IH, mapSet_NoDup.
Qed.

Lemma mergeFold_keys l (m : list (string * Player.t)) nm :
  nm ∈ map fst (fold_left (fun m p => mapSet (Player.name p) p m) l m) ↔
  nm ∈ map Player.name l ∨ nm ∈ map fst m.
Proof.
  revert m. induction l as [|p l IH]; intros m; simpl.
  - split; [by right|]. intros [H|H]; [by apply elem_of_nil in H|done].
  - rewrite IH, mapSet_keys, elem_of_cons. tauto.
Qed.

(** Every entry of the map is keyed by the name of its value. *)
Lemma mapSet_named (p : Player.t) (m : list (string * Player.t)) :
  Forall (fun e => e.1 = Player.name e.2) m →
  Forall (fun e => e.1 = Player.name e.2) (mapSet (Player.name p) p m).
Proof.
  induction 1 as [|e m He Hm IH]; simpl.
  - by repeat constructor.
  - destruct (String.eqb e.1 (Player.name p)); by constructor.
Qed.

Lemma mergeFold_named l (m : list (string * Player.t)) :
  Forall (fun e => e.1 = Player.name e.2) m →
  Forall (fun e => e.1 = Player.name e.2)
         (fold_left (fun m p => mapSet (Player.name p) p m) l m).
Proof.
  revert m. induction l as [|p l IH]; intros m Hm; [done|].
  cbn [fold_left]. by apply IH, mapSet_named.
Qed.

Lemma named_values (m : list (string * Player.t)) nm :
  Forall (fun e => e.1 = Player.name e.2) m →
  map Player.name (map snd m) = map fst m ∧
  List.find (fun p => String.eqb (Player.name p) nm) (map snd m)
  = snd <$> List.find (fun e : string * Player.t => String.eqb e.1 nm) m.
Proof.
  induction 1 as [|e m He Hm [IH1 IH2]]; simpl; [done|].
  rewrite IH1, IH2, <- He. split; [done|].
  by destruct (String.eqb e.1 nm).
Qed.

Lemma mergePicks_named staticPicks workerPicks :
  Forall (fun e : string * Player.t => e.1 = Player.name e.2)
         (fold_left (fun m p => mapSet (Player.name p) p m) workerPicks
            (fold_left (fun m p => mapSet (Player.name p) p m)
                       staticPicks [])).
Proof. apply mergeFold_named, mergeFold_named. constructor. Qed.

Lemma mergePicks_NoDup staticPicks workerPicks :
  NoDup (map Player.name (mergePicks staticPicks workerPicks)).
Proof.
  unfold mergePicks. cbv zeta.
  rewrite (proj1 (named_values _ "" (mergePicks_named _ _))).
  apply mergeFold_NoDup, mergeFold_NoDup. constructor.
Qed.

Lemma mergePicks_find staticPicks workerPicks nm :
  List.find (fun p => String.eqb (Player.name p) nm)
            (mergePicks staticPicks workerPicks)
  = match lastNamed nm workerPicks with
    | Some p => Some p
    | None => lastNamed nm staticPicks
    end.
Proof.
  unfold mergePicks. cbv zeta.
  rewrite (proj2 (named_values _ nm (mergePicks_named _ _))).
  rewrite !mergeFold_find.
  destruct (lastNamed nm workerPicks); [done|].
  by destruct (lastNamed nm staticPicks).
Qed.

Lemma mergePicks_names staticPicks workerPicks nm :
  nm ∈ map Player.name (mergePicks staticPicks workerPicks) ↔
  nm ∈ map Player.name staticPicks ∨ nm ∈ map Player.name workerPicks.
Proof.
  unfold mergePicks. cbv zeta.
  rewrite (proj1 (named_values _ "" (mergePicks_named _ _))).
  rewrite !mergeFold_keys. simpl. rewrite elem_of_nil. tauto.
Qed.

(** X5.  The merged picks have one entry per name; the entry for a name is
    the last pick of that name stored by the worker, or, when the worker
    has none, the last static pick of that name; and the names are those
    of the static and of the worker picks. *)
Theorem mergePicks_last_write_wins staticPicks workerPicks :
  NoDup (map Player.name (mergePicks staticPicks workerPicks)) ∧
  (∀ nm, List.find (fun p => String.eqb (Player.name p) nm)
                   (mergePicks staticPicks workerPicks)
         = match lastNamed nm workerPicks with
           | Some p => Some p
           | None => lastNamed nm staticPicks
           end) ∧
  (∀ nm, nm ∈ map Player.name (mergePicks staticPicks workerPicks) ↔
         nm ∈ map Player.name staticPicks ∨
         nm ∈ map Player.name workerPicks).
Proof.
  split; [apply mergePicks_NoDup|].
  split; intros nm; [apply mergePicks_find|apply mergePicks_names].
Qed.

(** X6.  When the worker returns picks for an active season, the
    standings computed from the loaded picks name every player once: the
    names are those of the static and of the worker picks, and the page of
    a player shows the standing of the last pick the worker stored under
    that name. *)
Theorem standings_of_loaded_picks season contestants staticPicks workerPicks :
  workerPicks ≠ [] →
  let picks := loadPicks "active" staticPicks (Some workerPicks) in
  NoDup (map Standing.name (computeStandings season contestants picks)) ∧
  (∀ nm, nm ∈ map Standing.name (computeStandings season contestants picks)
         ↔ nm ∈ map Player.name staticPicks ∨
           nm ∈ map Player.name workerPicks) ∧
  (∀ p, lastNamed (Player.name p) workerPicks = Some p →
        findResult season contestants picks (Player.name p)
        = Some (scorePlayer season (contestantMap contestants) p)).
Proof.
  intros Hne picks.
  assert (Hpicks : picks = mergePicks staticPicks workerPicks).
  { unfold picks, loadPicks. simpl. by destruct workerPicks. }
  rewrite Hpicks. clear picks Hpicks.
  pose proof (mergePicks_NoDup staticPicks workerPicks) as Hnd.
  pose proof (mergePicks_find staticPicks workerPicks) as Hfind.
  pose proof (mergePicks_names staticPicks workerPicks) as Hnames.
  split; [by rewrite computeStandings_names|].
  split; [intros nm; by rewrite computeStandings_names|].
  intros p Hlast.
  assert (Hin : p ∈ mergePicks staticPicks workerPicks).
  { specialize (Hfind (Player.name p)). rewrite Hlast in Hfind.
    apply find_some in Hfind as [Hin _]. by apply list_elem_of_In. }
  unfold findResult.
  rewrite <- (scorePlayer_name season (contestantMap contestants) p).
  apply (find_name_NoDup Standing.name).
  - by rewrite computeStandings_names.
  - by apply scorePlayer_in_output.
Qed.

Lemma standings_of_loaded_picks_witness :
  [playerA] ≠ [] ∧
  findResult scenarioSeason scenarioRoster
    (loadPicks "active" [playerB; Player.mk "p" ["B"%string] None]
               (Some [playerA])) "p"
  = Some standingA.
Proof.
  assert (Hne : [playerA] ≠ []) by discriminate.
  split; [exact Hne|].
  exact (proj2 (proj2 (standings_of_loaded_picks scenarioSeason
                         scenarioRoster
                         [playerB; Player.mk "p" ["B"%string] None]
                         [playerA] Hne)) playerA eq_refl).
Defined.

(** * The picks store of the worker *)

Lemma filter_named_out (pn : string) (l : list Stored.t) :
  List.filter (fun p => String.eqb (Stored.name p) pn)
    (List.filter (fun p => negb (String.eqb (Stored.name p) pn)) l) = [].
Proof.
  induction l as [|p l IH]; [done|]. simpl.
  destruct (String.eqb (Stored.name p) pn) eqn:Hp; simpl; [done|].
  by rewrite Hp.
Qed.

Lemma filter_named_out_names (pn : string) (l : list Stored.t) :
  pn ∉ map Stored.name
         (List.filter (fun p => negb (String.eqb (Stored.name p) pn)) l).
Proof.
  rewrite list_elem_of_In, in_map_iff. intros (p & Hname & Hin).
  apply filter_In in Hin as [_ Hne]. rewrite Hname in Hne.
  by rewrite String.eqb_refl in Hne.
Qed.

Lemma filter_names_NoDup (f : Stored.t → bool) (l : list Stored.t) :
  NoDup (map Stored.name l) → NoDup (map Stored.name (List.filter f l)).
Proof.
  induction l as [|p l IH]; simpl; [done|]. intros Hnd.
  apply NoDup_cons in Hnd as [Hp Hnd]. destruct (f p); [|by apply IH].
  simpl. apply NoDup_cons. split; [|by apply IH].
  intros Hin. apply Hp. rewrite list_elem_of_In, in_map_iff in *.
  destruct Hin as (q & Hq & Hin). exists q. split; [done|].
  by apply filter_In in Hin as [Hin _].
Qed.

Lemma storedPicks_insert st cfg season l :
  storedPicks (Store.mk cfg (<[season := l]> (Store.picks st))) season = l.
Proof. unfold storedPicks. simpl. by rewrite lookup_insert_eq. Qed.

Lemma checkConfig_rejects config now picks alternates reply :
  checkConfig config now picks alternates = Some reply →
  replyStatus reply ≠ 200.
Proof.
  unfold checkConfig. destruct config as [cfg|]; [|done].
  destruct (match Config.deadline cfg with
            | Some d => d <=? now | None => false end);
    [by intros [= <-]|].
  case_bool_decide; [by intros [= <-]|].
  destruct (Config.contestants cfg) as [valid|]; [|done].
  destruct (spread alternates) as [alts|]; [|by intros [= <-]]. cbv zeta.
  destruct (0 <? _); [by intros [= <-]|done].
Qed.

(** What an accepted [POST /picks] was given. *)
Lemma postPicks_accepted_inv normalize now submittedAt body st pn st' :
  postPicks normalize now submittedAt body st = (ReplySubmitted pn, st') →
  ∃ b season name picks,
    body = Some b ∧ Body.season b = Some season ∧ Body.name b = Some name ∧
    Body.picks b = Some picks ∧ season ≠ ""%string ∧ name ≠ ""%string ∧
    checkConfig (Store.config st !! season) now picks
                (orEmptyArray (Body.alternates b)) = None ∧
    pn = normalize name ∧
    st' = Store.mk (Store.config st)
            (<[season :=
                 List.filter
                   (fun p => negb (String.eqb (Stored.name p) pn))
                   (storedPicks st season)
                 ++ [Stored.mk pn picks (orEmptyArray (Body.alternates b))
                               submittedAt]]> (Store.picks st)).
Proof.
  unfold postPicks. intros H.
  destruct body as [b|]; [|done].
  destruct (Body.season b) as [season|] eqn:Hs; [|done].
  destruct (Body.name b) as [name|] eqn:Hn; [|done].
  destruct (Body.picks b) as [picks|] eqn:Hp; [|done].
  simpl in H.
  destruct (String.eqb_spec season "") as [|Hs0]; [done|].
  destruct (String.eqb_spec name "") as [|Hn0]; [done|]. simpl in H.
  destruct (checkConfig _ _ _) as [reply|] eqn:Hc.
  { injection H as -> _. by apply checkConfig_rejects in Hc. }
  injection H as <- <-.
  exists b, season, name, picks. by repeat split.
Qed.

(** X7.  An accepted [POST /picks] stores the submission under the
    normalized name at the end of the season's list, after removing the
    submissions of that name: the season then has exactly one submission
    of that name, the new one, with the picks and with the alternates as
    they were sent (the empty array for a falsy value); the other
    submissions keep their order, and the other seasons and the
    configuration are untouched. *)
Theorem postPicks_replaces_by_name normalize now submittedAt body st pn st' :
  postPicks normalize now submittedAt body st = (ReplySubmitted pn, st') →
  ∃ b season name picks,
    body = Some b ∧ Body.season b = Some season ∧
    Body.name b = Some name ∧ Body.picks b = Some picks ∧
    pn = normalize name ∧
    storedPicks st' season
    = List.filter (fun p => negb (String.eqb (Stored.name p) pn))
                  (storedPicks st season)
      ++ [Stored.mk pn picks (orEmptyArray (Body.alternates b))
                    submittedAt] ∧
    List.filter (fun p => String.eqb (Stored.name p) pn)
                (storedPicks st' season)
    = [Stored.mk pn picks (orEmptyArray (Body.alternates b)) submittedAt] ∧
    (∀ other, other ≠ season →
              Store.picks st' !! other = Store.picks st !! other) ∧
    Store.config st' = Store.config st.
Proof.
  intros H. apply postPicks_accepted_inv in H
    as (b & season & name & picks & -> & Hs & Hn & Hp & _ & _ & _ & Hpn & ->).
  exists b, season, name, picks. rewrite storedPicks_insert.
  do 5 (split; [done|]). split; [done|]. split; [|split; [|done]].
  - rewrite List.filter_app, filter_named_out. simpl.
    by rewrite String.eqb_refl.
  - intros other Hne. simpl. by rewrite lookup_insert_ne.
Qed.

Lemma postPicks_replaces_by_name_witness :
  postPicks keepName 10 7 (Some demoBody) demoStore
  = (ReplySubmitted "ann",
     (postPicks keepName 10 7 (Some demoBody) demoStore).2) ∧
  storedPicks (postPicks keepName 10 7 (Some demoBody) demoStore).2 "s50"
  = [Stored.mk "bob" ["A"%string] (AltsArray []) 6; demoStored].
Proof.
  assert (H : postPicks keepName 10 7 (Some demoBody) demoStore
              = (ReplySubmitted "ann",
                 (postPicks keepName 10 7 (Some demoBody) demoStore).2))
    by reflexivity.
  split; [exact H|].
  destruct (postPicks_replaces_by_name keepName 10 7 (Some demoBody)
              demoStore "ann" _ H)
    as (b & season & name & picks & Hb & Hs & Hn & Hp & _ & Hstored & _).
  injection Hb as <-. injection Hs as <-. injection Hp as <-.
  exact Hstored.
Defined.

(** X8.  A request that is not answered with status 200 leaves the store
    as it was: a body that is missing or lacks a required field, a
    submission after the deadline, while submissions are not open or with
    a name outside the configured contestants, and an administrative
    request without the right authorization. *)
Theorem rejected_request_changes_nothing normalize secret req st :
  replyStatus (handle normalize secret req st).1 ≠ 200 →
  (handle normalize secret req st).2 = st.
Proof.
  destruct req as [now submittedAt body|auth body|auth body]; simpl.
  - unfold postPicks. destruct body as [b|]; [|done].
    destruct (Body.season b), (Body.name b), (Body.picks b); try done.
    destruct (_ || _); [done|].
    by destruct (checkConfig _ _ _).
  - unfold deletePick. destruct (negb _); [done|].
    destruct body as [b|]; [|done].
    destruct (Body.season b), (Body.name b); try done.
    by destruct (_ || _).
  - unfold adminConfig. destruct (negb _); [done|].
    destruct body as [b|]; [|done]. by destruct (falsyStr _).
Qed.

Lemma checkConfig_passes cfg now picks alternates :
  checkConfig (Some cfg) now picks alternates = None →
  (∀ d, Config.deadline cfg = Some d → now < d) ∧
  Config.open cfg ≠ Some false ∧
  (∀ valid, Config.contestants cfg = Some valid →
            ∃ alts, spread alternates = Some alts ∧
                    ∀ nm, nm ∈ picks ++ alts → nm ∈ valid).
Proof.
  unfold checkConfig. intros Hc.
  assert (Hd : ∀ d, Config.deadline cfg = Some d → now < d).
  { intros d Hd. rewrite Hd in Hc. by destruct (Z.leb_spec d now). }
  destruct (match Config.deadline cfg with
            | Some d => d <=? now | None => false end); [done|].
  case_bool_decide as Hopen; [done|].
  split; [exact Hd|]. split; [exact Hopen|].
  intros valid Hv. rewrite Hv in Hc.
  destruct (spread alternates) as [alts|]; [|done]. cbv zeta in Hc.
  exists alts. split; [done|]. intros nm Hnm.
  destruct (List.filter _ _) as [|x l] eqn:Hf; [|done].
  destruct (decide (nm ∈ valid)) as [|Hno]; [done|].
  assert (In nm []); [|done]. rewrite <- Hf. apply filter_In.
  split; [by apply list_elem_of_In|]. by rewrite bool_decide_eq_false_2.
Qed.

(** X9.  A submission is accepted only within the configuration of its
    season: before the deadline if one is set, not while [open] is
    [false], and, if the contestants are configured, with [alternates]
    something that can be iterated and every pick and every element of
    [alternates] (an entry of an array, a character of a string) among
    them. *)
Theorem accepted_submission_within_config
    normalize now submittedAt b st pn st' season cfg :
  postPicks normalize now submittedAt (Some b) st = (ReplySubmitted pn, st') →
  Body.season b = Some season →
  Store.config st !! season = Some cfg →
  (∀ d, Config.deadline cfg = Some d → now < d) ∧
  Config.open cfg ≠ Some false ∧
  (∀ valid, Config.contestants cfg = Some valid →
     ∃ alts, spread (orEmptyArray (Body.alternates b)) = Some alts ∧
             ∀ nm, nm ∈ default [] (Body.picks b) ++ alts → nm ∈ valid).
Proof.
  intros H Hs Hcfg. apply postPicks_accepted_inv in H
    as (b' & season' & name & picks & [= <-] & Hs' & _ & Hp & _ & _ & Hc & _).
  rewrite Hs in Hs'. injection Hs' as <-. rewrite Hcfg in Hc. rewrite Hp.
  simpl. by apply checkConfig_passes.
Qed.

Lemma accepted_submission_within_config_witness :
  postPicks keepName 10 7 (Some demoBody) demoStore
  = (ReplySubmitted "ann",
     (postPicks keepName 10 7 (Some demoBody) demoStore).2) ∧
  10 < 1000 ∧ "C"%string ∈ ["A"%string; "B"%string; "C"%string].
Proof.
  assert (H : postPicks keepName 10 7 (Some demoBody) demoStore
              = (ReplySubmitted "ann",
                 (postPicks keepName 10 7 (Some demoBody) demoStore).2))
    by reflexivity.
  split; [exact H|].
  destruct (accepted_submission_within_config keepName 10 7 demoBody
              demoStore "ann" _ "s50" demoConfig H eq_refl eq_refl)
    as (Hd & _ & Hvalid).
  split; [exact (Hd 1000 eq_refl)|].
  destruct (Hvalid _ eq_refl) as (alts & Halts & Hin).
  injection Halts as <-. apply Hin. simpl. right. right. left.
Defined.

Lemma handle_uniqueNames normalize secret req st :
  uniqueNames st → uniqueNames (handle normalize secret req st).2.
Proof.
  intros Huniq.
  assert (Hstored : ∀ season, NoDup (map Stored.name (storedPicks st season))).
  { intros season. unfold storedPicks.
    destruct (Store.picks st !! season) as [l|] eqn:Hl; [by eapply Huniq|].
    constructor. }
  destruct req as [now submittedAt body|auth body|auth body]; simpl.
  - unfold postPicks. destruct body as [b|]; [|done].
    destruct (Body.season b) as [season|], (Body.name b) as [name|],
      (Body.picks b) as [picks|]; try done.
    destruct (_ || _); [done|].
    destruct (checkConfig _ _ _) as [r|]; [done|].
    intros season' l. simpl.
    destruct (decide (season = season')) as [<-|Hne].
    + rewrite lookup_insert_eq. intros [= <-].
      rewrite map_app. simpl. apply NoDup_app. split; [|split].
      * by apply filter_names_NoDup.
      * intros x Hx Hx'. apply list_elem_of_singleton in Hx'. subst x.
        by apply filter_named_out_names in Hx.
      * apply NoDup_singleton.
    + rewrite lookup_insert_ne by done. apply Huniq.
  - unfold deletePick. destruct (negb _); [done|].
    destruct body as [b|]; [|done].
    destruct (Body.season b) as [season|], (Body.name b) as [name|];
      try done.
    destruct (_ || _); [done|].
    intros season' l. simpl.
    destruct (decide (season = season')) as [<-|Hne].
    + rewrite lookup_insert_eq. intros [= <-]. by apply filter_names_NoDup.
    + rewrite lookup_insert_ne by done. apply Huniq.
  - unfold adminConfig. destruct (negb _); [done|].
    destruct body as [b|]; [|done].
    by destruct (falsyStr _).
Qed.

Lemma serve_keeps_uniqueNames normalize secret reqs st :
  uniqueNames st → uniqueNames (serve normalize secret reqs st).
Proof.
  unfold serve. revert st.
  induction reqs as [|req reqs IH]; intros st Hst; [done|].
  simpl. by apply IH, handle_uniqueNames.
Qed.

Lemma emptyStore_uniqueNames : uniqueNames emptyStore.
Proof. intros season l Hl. simpl in Hl. by rewrite lookup_empty in Hl. Qed.

(** X10.  Whatever requests are served, in whatever order, no season ever
    has two stored submissions of the same name: the property holds in the
    empty store and every request keeps it. *)
Theorem served_store_has_unique_names normalize secret reqs :
  uniqueNames (serve normalize secret reqs emptyStore) ∧
  (∀ st, uniqueNames st → uniqueNames (serve normalize secret reqs st)).
Proof.
  split.
  - apply serve_keeps_uniqueNames, emptyStore_uniqueNames.
  - intros st. apply serve_keeps_uniqueNames.
Qed.

Lemma rejected_request_changes_nothing_witness :
  replyStatus (handle keepName "secret" (Submit 2000 7 (Some demoBody))
                      demoStore).1 = 403 ∧
  (handle keepName "secret" (Submit 2000 7 (Some demoBody)) demoStore).2
  = demoStore.
Proof.
  split; [reflexivity|].
  apply (rejected_request_changes_nothing keepName "secret"
           (Submit 2000 7 (Some demoBody)) demoStore).
  vm_compute. discriminate.
Defined.

Lemma served_store_has_unique_names_witness :
  uniqueNames demoStore ∧
  uniqueNames (serve keepName "secret"
                 [Submit 10 7 (Some demoBody);
                  Delete demoAuth (Some demoBody)] demoStore).
Proof.
  assert (H : uniqueNames demoStore).
  { intros season l Hl. unfold demoStore in Hl. simpl in Hl.
    destruct (decide ("s50"%string = season)) as [<-|Hne].
    - rewrite lookup_insert_eq in Hl. injection Hl as <-. simpl.
      apply NoDup_cons. split.
      + intros Hin. apply list_elem_of_singleton in Hin. discriminate.
      + apply NoDup_singleton.
    - rewrite lookup_insert_ne, lookup_empty in Hl by done. discriminate. }
  split; [exact H|].
  exact (proj2 (served_store_has_unique_names keepName "secret"
                  [Submit 10 7 (Some demoBody);
                   Delete demoAuth (Some demoBody)]) demoStore H).
Defined.

Lemma contestantMap_fold_Some contestants (m : gmap string Contestant.t) nm :
  is_Some (m !! nm) ∨ nm ∈ map Contestant.name contestants →
  is_Some (fold_left (fun m c => <[Contestant.name c := c]> m)
                     contestants m !! nm).
Proof.
  revert m. induction contestants as [|c cs IH]; intros m; simpl.
  - intros [H|H]; [done|by apply elem_of_nil in H].
  - intros H. apply IH.
    destruct (decide (Contestant.name c = nm)) as [<-|Hne].
    + left. by rewrite lookup_insert_eq.
    + rewrite lookup_insert_ne by done.
      destruct H as [H|H]; [by left|].
      apply elem_of_cons in H as [->|H]; [done|by right].
Qed.

Lemma contestantMap_lookup_Some contestants nm :
  nm ∈ map Contestant.name contestants →
  is_Some (contestantMap contestants !! nm).
Proof. intros H. apply contestantMap_fold_Some. by right. Qed.

Lemma orEmptyArray_again alternates :
  orEmptyArray (Some (orEmptyArray alternates)) = orEmptyArray alternates.
Proof. by destruct alternates as [[names|[|c cs]|]|]. Qed.

Lemma toPlayer_array name picks alternates submittedAt names :
  orEmptyArray alternates = AltsArray names →
  toPlayer (Stored.mk name picks (orEmptyArray alternates) submittedAt)
  = Some (Player.mk name picks (Some names)).
Proof. intros H. by rewrite H. Qed.

(** X11.  When the configured contestants of a season are names of the
    roster, an accepted submission is stored last in the season's list.
    If its [alternates] was an array, or falsy, every pick and every
    alternate of its standing has a contestant: no name of it resolves to
    nothing.  If its [alternates] was anything else (a string whose
    characters are configured names is accepted), [computeStandings]
    throws on the stored submission. *)
Theorem accepted_submission_resolves
    normalize now submittedAt b st pn st' season cfg valid
    engineSeason roster :
  postPicks normalize now submittedAt (Some b) st = (ReplySubmitted pn, st') →
  Body.season b = Some season →
  Store.config st !! season = Some cfg →
  Config.contestants cfg = Some valid →
  (∀ nm, nm ∈ valid → nm ∈ map Contestant.name roster) →
  ∃ r, last (storedPicks st' season) = Some r ∧
       Stored.name r = pn ∧
       Stored.alternates r = orEmptyArray (Body.alternates b) ∧
       (∀ names, orEmptyArray (Body.alternates b) = AltsArray names →
          ∃ player,
            toPlayer r = Some player ∧
            Forall (fun p => is_Some (Pick.contestant p))
                   (Standing.picks (scorePlayer engineSeason
                                      (contestantMap roster) player)) ∧
            Forall (fun q => is_Some (Alt.contestant q))
                   (Standing.alternates (scorePlayer engineSeason
                                           (contestantMap roster) player))) ∧
       ((∀ names, orEmptyArray (Body.alternates b) ≠ AltsArray names) →
        toPlayer r = None).
Proof.
  intros H Hs Hcfg Hvalid Hroster.
  apply postPicks_accepted_inv in H
    as (b' & season' & name & picks & [= <-] & Hs' & _ & Hp & _ & _ & Hc
        & _ & ->).
  rewrite Hs in Hs'. injection Hs' as <-. rewrite Hcfg in Hc.
  apply checkConfig_passes in Hc as (_ & _ & Hin).
  destruct (Hin valid Hvalid) as (alts & Halts & Hall).
  eexists. split; [by rewrite storedPicks_insert, last_snoc|].
  split; [done|]. split; [done|]. split.
  - intros names Hnames. rewrite Hnames in Halts. injection Halts as <-.
    eexists. split; [by apply toPlayer_array|].
    assert (Hres : ∀ nm, nm ∈ picks ++ names →
                         is_Some (contestantMap roster !! nm)).
    { intros nm Hnm. by apply contestantMap_lookup_Some, Hroster, Hall. }
    split; apply Forall_lookup; intros k x Hk.
    + rewrite scorePlayer_picks, finalPicks_lookup in Hk.
      unfold pickContestants in Hk. rewrite lookup_map in Hk. simpl in Hk.
      destruct (picks !! k) as [nm|] eqn:Hnm; [|done].
      injection Hk as <-. simpl. apply Hres, elem_of_app. left.
      by eapply list_elem_of_lookup_2.
    + rewrite scorePlayer_alternates, activeAlts_lookup in Hk.
      unfold altContestants in Hk. rewrite lookup_map in Hk. simpl in Hk.
      destruct (names !! k) as [nm|] eqn:Hnm; [|done].
      injection Hk as <-. simpl. apply Hres, elem_of_app. right.
      by eapply list_elem_of_lookup_2.
  - intros Hnot.
    destruct (Body.alternates b) as [[names|[|c cs]|]|]; simpl in *;
      try done; by destruct (Hnot _ eq_refl).
Qed.

Lemma accepted_submission_resolves_witness :
  postPicks keepName 10 7 (Some demoBody) demoStore
  = (ReplySubmitted "ann",
     (postPicks keepName 10 7 (Some demoBody) demoStore).2) ∧
  ∃ player,
    toPlayer demoStored = Some player ∧
    Forall (fun p => is_Some (Pick.contestant p))
           (Standing.picks (scorePlayer scenarioSeason
                              (contestantMap scenarioRoster) player)).
Proof.
  assert (H : postPicks keepName 10 7 (Some demoBody) demoStore
              = (ReplySubmitted "ann",
                 (postPicks keepName 10 7 (Some demoBody) demoStore).2))
    by reflexivity.
  split; [exact H|].
  destruct (accepted_submission_resolves keepName 10 7 demoBody demoStore
              "ann" _ "s50" demoConfig
              ["A"%string; "B"%string; "C"%string]
              scenarioSeason scenarioRoster H eq_refl eq_refl eq_refl)
    as (r & Hlast & _ & _ & Harray & _).
  - intros nm Hnm. exact Hnm.
  - injection Hlast as <-.
    destruct (Harray ["C"%string] eq_refl) as (player & Hplayer & Hpicks & _).
    exists player. split; [exact Hplayer|exact Hpicks].
Defined.

(** A submission whose [alternates] is the string [BC] is accepted in a
    season whose contestants are A, B and C, and [computeStandings] throws
    on what is stored. *)
Example text_alternates_accepted :
  (postPicks keepName 10 7 (Some textBody) demoStore).1
  = ReplySubmitted "cat" ∧
  toPlayer <$> last (storedPicks
                       (postPicks keepName 10 7 (Some textBody) demoStore).2
                       "s50")
  = Some None.
Proof. split; reflexivity. Qed.


Lemma deletePick_authorized auth secret b season name st :
  isAuthorized auth secret = true →
  Body.season b = Some season → season ≠ ""%string →
  Body.name b = Some name → name ≠ ""%string →
  deletePick auth secret (Some b) st
  = (ReplyDeleted
       (length (List.filter
                  (fun p => negb (String.eqb (Stored.name p) name))
                  (storedPicks st season))),
     Store.mk (Store.config st)
       (<[season := List.filter
                      (fun p => negb (String.eqb (Stored.name p) name))
                      (storedPicks st season)]> (Store.picks st))).
Proof.
  intros Hauth Hs Hs0 Hn Hn0. unfold deletePick.
  rewrite Hauth, Hs, Hn. simpl.
  destruct (String.eqb_spec season "") as [|_]; [done|].
  by destruct (String.eqb_spec name "") as [|_].
Qed.

(** X12.  An authorized [delete-pick] with a season and a name removes
    from the season every submission stored under exactly that name and
    nothing else, reports the number of submissions that remain, and leaves
    the other seasons and the configuration as they were. *)
Theorem deletePick_removes_name auth secret b season name st :
  isAuthorized auth secret = true →
  Body.season b = Some season → season ≠ ""%string →
  Body.name b = Some name → name ≠ ""%string →
  let st' := (deletePick auth secret (Some b) st).2 in
  (deletePick auth secret (Some b) st).1
  = ReplyDeleted (length (storedPicks st' season)) ∧
  storedPicks st' season
  = List.filter (fun p => negb (String.eqb (Stored.name p) name))
                (storedPicks st season) ∧
  (name ∉ map Stored.name (storedPicks st' season)) ∧
  (length (storedPicks st' season) ≤ length (storedPicks st season))%nat ∧
  (∀ other, other ≠ season →
            Store.picks st' !! other = Store.picks st !! other) ∧
  Store.config st' = Store.config st.
Proof.
  intros Hauth Hs Hs0 Hn Hn0.
  rewrite (deletePick_authorized auth secret b season name st) by done.
  simpl. rewrite storedPicks_insert. split; [done|]. split; [done|].
  split; [apply filter_named_out_names|]. split; [apply filter_length_le|].
  split; [|done]. intros other Hne. by rewrite lookup_insert_ne.
Qed.

Lemma deletePick_removes_name_witness :
  isAuthorized demoAuth "secret" = true ∧
  storedPicks (deletePick demoAuth "secret" (Some demoBody) demoStore).2 "s50"
  = [Stored.mk "bob" ["A"%string] (AltsArray []) 6].
Proof.
  split; [reflexivity|].
  exact (proj1 (proj2 (deletePick_removes_name demoAuth "secret" demoBody
                         "s50" "ann" demoStore eq_refl eq_refl
                         ltac:(discriminate) eq_refl ltac:(discriminate)))).
Defined.



(** X14.  No [delete-pick] request removes a submission stored under the
    empty name: the handler refuses a request whose name is empty, and a
    request with another name keeps the submissions of the empty name. *)
Theorem delete_keeps_unnamed auth secret body st season :
  List.filter (fun p => String.eqb (Stored.name p) "")
              (storedPicks (deletePick auth secret body st).2 season)
  = List.filter (fun p => String.eqb (Stored.name p) "")
                (storedPicks st season).
Proof.
  unfold deletePick. destruct (negb _); [done|].
  destruct body as [b|]; [|done].
  destruct (Body.season b) as [s|], (Body.name b) as [name|]; try done.
  simpl. destruct (String.eqb_spec s "") as [|_]; [done|].
  destruct (String.eqb_spec name "") as [|Hn]; [done|]. simpl.
  unfold storedPicks at 1. simpl.
  destruct (decide (s = season)) as [->|Hne].
  - rewrite lookup_insert_eq. simpl.
    induction (storedPicks st season) as [|p l IH]; [done|]. simpl.
    destruct (String.eqb_spec (Stored.name p) name) as [Hp|Hp]; simpl.
    + rewrite IH. destruct (String.eqb_spec (Stored.name p) "") as [Hp'|];
        [congruence|done].
    + by rewrite IH.
  - by rewrite lookup_insert_ne.
Qed.



(** * The pick selector of the submit page *)

Lemma indexOfFrom_spec name l i :
  (indexOfFrom name l i = -1 ∧ name ∉ l) ∨
  (∃ k : nat, indexOfFrom name l i = i + Z.of_nat k ∧
              l !! k = Some name ∧ name ∉ take k l) ∨
  i < 0.
Proof.
  destruct (Z.ltb_spec i 0) as [Hi|Hi]; [by right; right|].
  revert i Hi. induction l as [|x l IH]; intros i Hi; simpl.
  - left. split; [done|apply not_elem_of_nil].
  - destruct (String.eqb_spec x name) as [->|Hne].
    + right. left. exists 0%nat. split; [lia|]. split; [done|].
      apply not_elem_of_nil.
    + destruct (IH (i + 1) ltac:(lia)) as [[-> Hno]|[(k & -> & Hk & Hno)|?]];
        [|right; left|lia].
      * left. split; [done|]. apply not_elem_of_cons. by split.
      * exists (S k). split; [lia|]. split; [done|]. simpl.
        apply not_elem_of_cons. by split.
Qed.

Lemma indexOf_spec name l :
  (indexOf name l = -1 ∧ name ∉ l) ∨
  (∃ k : nat, indexOf name l = Z.of_nat k ∧
              l !! k = Some name ∧ name ∉ take k l).
Proof.
  unfold indexOf.
  destruct (indexOfFrom_spec name l 0) as [H|[(k & Hk & H)|?]];
    [by left| |lia].
  right. exists k. by rewrite Hk.
Qed.

Lemma click_NoDup totalSlots selected c :
  NoDup selected → NoDup (click totalSlots selected c).
Proof.
  intros Hnd. destruct c as [name|i]; simpl.
  - unfold clickCard. cbv zeta.
    destruct (indexOf_spec name selected) as [[-> Hno]|(k & -> & _)]; simpl.
    + destruct (_ <? _); [|done].
      apply NoDup_app. split; [done|]. split; [|apply NoDup_singleton].
      intros x Hx Hx'. apply list_elem_of_singleton in Hx'. by subst.
    + replace (Z.of_nat k =? -1) with false
        by (symmetry; apply Z.eqb_neq; lia).
      simpl. rewrite Nat2Z.id.
      eapply sublist_NoDup; [done|]. apply sublist_delete.
  - unfold clickSlot. destruct (selected !! i) as [name|]; [|done].
    destruct (String.eqb name ""); [done|].
    eapply sublist_NoDup; [done|]. apply sublist_delete.
Qed.

Lemma delete_length_le {A} (i : nat) (l : list A) :
  (length (delete i l) ≤ length l)%nat.
Proof. apply sublist_length, sublist_delete. Qed.

Lemma click_length totalSlots selected c :
  Z.of_nat (length selected) ≤ Z.max 0 totalSlots →
  Z.of_nat (length (click totalSlots selected c)) ≤ Z.max 0 totalSlots.
Proof.
  intros Hlen. destruct c as [name|i]; simpl.
  - unfold clickCard. cbv zeta. destruct (negb _).
    + pose proof (delete_length_le (Z.to_nat (indexOf name selected))
                    selected). lia.
    + destruct (Z.ltb_spec (Z.of_nat (length selected)) totalSlots);
        [|done].
      rewrite length_app. simpl. lia.
  - unfold clickSlot. destruct (selected !! i) as [name|]; [|done].
    destruct (String.eqb name ""); [done|].
    pose proof (delete_length_le i selected). lia.
Qed.

Lemma clicks_keep_invariant totalSlots clicks sel :
  NoDup sel → Z.of_nat (length sel) ≤ Z.max 0 totalSlots →
  NoDup (fold_left (click totalSlots) clicks sel) ∧
  Z.of_nat (length (fold_left (click totalSlots) clicks sel))
  ≤ Z.max 0 totalSlots.
Proof.
  revert sel. induction clicks as [|c clicks IH]; intros sel Hnd Hlen;
    [done|].
  simpl. apply IH; [by apply click_NoDup|by apply click_length].
Qed.

(** X16.  Whatever cards and slots are clicked, in whatever order, the
    selection never holds a contestant twice and never holds more than
    [totalSlots] contestants (none when [totalSlots] is negative). *)
Theorem picker_invariant totalSlots clicks :
  NoDup (picker totalSlots clicks) ∧
  Z.of_nat (length (picker totalSlots clicks)) ≤ Z.max 0 totalSlots.
Proof.
  unfold picker. apply clicks_keep_invariant; [constructor|].
  simpl. lia.
Qed.

Lemma jsSlice_prefix {A} (l : list A) n :
  0 ≤ n ≤ Z.of_nat (length l) →
  jsSlice l 0 (Some n) = take (Z.to_nat n) l.
Proof.
  intros Hn. unfold jsSlice, relIndex. cbv zeta.
  destruct (Z.ltb_spec n 0); [lia|]. simpl.
  rewrite Z.min_l, Z.min_l by lia. simpl. by rewrite Z.sub_0_r.
Qed.

Lemma jsSlice_suffix {A} (l : list A) n :
  0 ≤ n ≤ Z.of_nat (length l) →
  jsSlice l n None = drop (Z.to_nat n) l.
Proof.
  intros Hn. unfold jsSlice, relIndex. cbv zeta.
  destruct (Z.ltb_spec n 0); [lia|]. rewrite Z.min_l by lia.
  apply take_ge. rewrite length_drop. lia.
Qed.

(** X17.  A body the submit handler sends for a selection made by clicks
    has exactly [picksPerPlayer] picks and [alternates] alternates; picks
    followed by alternates are the selection in the order it was made, so
    no contestant occurs twice among them; the name is the normalized
    input, not empty and not among the names already submitted. *)
Theorem submitForm_splits_selection
    normalize existingNames seasonId picksPerPlayer alternates nameInput
    clicks body :
  0 ≤ picksPerPlayer → 0 ≤ alternates →
  submitForm normalize existingNames seasonId picksPerPlayer alternates
             nameInput (picker (picksPerPlayer + alternates) clicks)
  = inr body →
  ∃ picks alts,
    body = Body.mk (Some seasonId) (Some (normalize nameInput))
                   (Some picks) (Some (AltsArray alts)) ∧
    Z.of_nat (length picks) = picksPerPlayer ∧
    Z.of_nat (length alts) = alternates ∧
    picks ++ alts = picker (picksPerPlayer + alternates) clicks ∧
    NoDup (picks ++ alts) ∧
    normalize nameInput ≠ ""%string ∧
    normalize nameInput ∉ existingNames.
Proof.
  intros Hp Ha. unfold submitForm. cbv zeta.
  destruct (clicks_keep_invariant (picksPerPlayer + alternates) clicks [])
    as [Hnd Hlen]; [constructor|simpl; lia|].
  fold (picker (picksPerPlayer + alternates) clicks) in Hnd, Hlen.
  set (sel := picker (picksPerPlayer + alternates) clicks) in *.
  destruct (String.eqb_spec (normalize nameInput) "") as [|Hname]; [done|].
  case_bool_decide as Hex; [done|].
  destruct (Z.ltb_spec (Z.of_nat (length sel))
                       (picksPerPlayer + alternates)) as [|Hfull]; [done|].
  intros [= <-].
  rewrite jsSlice_prefix, jsSlice_suffix by lia.
  eexists _, _. split; [done|].
  rewrite length_take, length_drop, take_drop.
  split; [lia|]. split; [lia|]. done.
Qed.

Lemma submitForm_splits_selection_witness :
  0 ≤ 2 ∧ 0 ≤ 1 ∧
  submitForm keepName ["ann"%string; "bob"%string] "s50" 2 1 "cat"
    (picker (2 + 1) [ClickCard "A"; ClickCard "B"; ClickCard "A";
                     ClickCard "C"; ClickCard "A"])
  = inr (Body.mk (Some "s50"%string) (Some "cat"%string)
                 (Some ["B"%string; "C"%string])
                 (Some (AltsArray ["A"%string]))) ∧
  ∃ picks alts, Z.of_nat (length picks) = 2 ∧ Z.of_nat (length alts) = 1 ∧
                picks ++ alts = ["B"%string; "C"%string; "A"%string].
Proof.
  split; [lia|]. split; [lia|].
  assert (H : submitForm keepName ["ann"%string; "bob"%string] "s50" 2 1
                "cat"
                (picker (2 + 1) [ClickCard "A"; ClickCard "B"; ClickCard "A";
                                 ClickCard "C"; ClickCard "A"])
              = inr (Body.mk (Some "s50"%string) (Some "cat"%string)
                       (Some ["B"%string; "C"%string])
                       (Some (AltsArray ["A"%string]))))
    by reflexivity.
  split; [exact H|].
  destruct (submitForm_splits_selection keepName
              ["ann"%string; "bob"%string] "s50" 2 1 "cat" _ _
              ltac:(lia) ltac:(lia) H)
    as (picks & alts & _ & Hp & Ha & Hsel & _).
  exists picks, alts. split; [exact Hp|]. split; [exact Ha|exact Hsel].
Defined.

Lemma filter_ne_id (name : string) (l : list string) :
  name ∉ l → List.filter (fun x => negb (String.eqb x name)) l = l.
Proof.
  induction l as [|x l IH]; [done|]. intros Hno.
  apply not_elem_of_cons in Hno as [Hne Hno]. simpl.
  destruct (String.eqb_spec x name) as [->|_]; [done|]. simpl.
  by rewrite IH.
Qed.

Lemma delete_first_filter (name : string) (l : list string) (k : nat) :
  NoDup l → l !! k = Some name → name ∉ take k l →
  delete k l = List.filter (fun x => negb (String.eqb x name)) l.
Proof.
  revert k. induction l as [|x l IH]; intros k Hnd Hk Hno; [done|].
  apply NoDup_cons in Hnd as [Hx Hnd]. destruct k as [|k]; simpl in *.
  - injection Hk as ->. rewrite String.eqb_refl. simpl.
    by rewrite filter_ne_id.
  - apply not_elem_of_cons in Hno as [Hne Hno].
    destruct (String.eqb_spec x name) as [->|_]; [done|]. simpl.
    f_equal. by apply IH.
Qed.

(** X18.  On a selection without repetition, a click on the card of a
    selected contestant removes that contestant and keeps the others in
    order; a click on the card of another contestant appends it when a
    slot is free, and a second click on the same card then restores the
    selection; when no slot is free the click changes nothing. *)
Theorem clickCard_toggles totalSlots name selected :
  NoDup selected →
  (name ∈ selected →
   clickCard totalSlots name selected
   = List.filter (fun x => negb (String.eqb x name)) selected) ∧
  (name ∉ selected → Z.of_nat (length selected) < totalSlots →
   clickCard totalSlots name selected = selected ++ [name] ∧
   clickCard totalSlots name (clickCard totalSlots name selected)
   = selected) ∧
  (name ∉ selected → totalSlots ≤ Z.of_nat (length selected) →
   clickCard totalSlots name selected = selected).
Proof.
  intros Hnd.
  assert (Hin : ∀ sel, NoDup sel → name ∈ sel →
                  clickCard totalSlots name sel
                  = List.filter (fun x => negb (String.eqb x name)) sel).
  { intros sel Hsel Hname. unfold clickCard. cbv zeta.
    destruct (indexOf_spec name sel) as [[_ Hno]|(k & -> & Hk & Hno)];
      [done|].
    replace (Z.of_nat k =? -1) with false
      by (symmetry; apply Z.eqb_neq; lia).
    simpl. rewrite Nat2Z.id. by apply delete_first_filter. }
  assert (Hout : name ∉ selected →
                 clickCard totalSlots name selected
                 = if Z.of_nat (length selected) <? totalSlots
                   then selected ++ [name] else selected).
  { intros Hno. unfold clickCard. cbv zeta.
    destruct (indexOf_spec name selected) as [[-> _]|(k & _ & Hk & _)];
      [done|].
    destruct Hno. by eapply list_elem_of_lookup_2. }
  split; [by apply Hin|]. split.
  - intros Hno Hfree. rewrite (Hout Hno).
    destruct (Z.ltb_spec (Z.of_nat (length selected)) totalSlots); [|lia].
    split; [done|]. rewrite Hin.
    + rewrite List.filter_app, filter_ne_id by done. simpl.
      rewrite String.eqb_refl. simpl. apply app_nil_r.
    + apply NoDup_app. split; [done|]. split; [|apply NoDup_singleton].
      intros x Hx Hx'. apply list_elem_of_singleton in Hx'. by subst.
    + apply elem_of_app. right. by apply list_elem_of_singleton.
  - intros Hno Hfull. rewrite (Hout Hno).
    by destruct (Z.ltb_spec (Z.of_nat (length selected)) totalSlots); [lia|].
Qed.

Lemma clickCard_toggles_witness :
  NoDup ["A"%string; "B"%string] ∧
  clickCard 3 "A" ["A"%string; "B"%string] = ["B"%string] ∧
  clickCard 3 "C" (clickCard 3 "C" ["A"%string; "B"%string])
  = ["A"%string; "B"%string].
Proof.
  assert (Hnd : NoDup ["A"%string; "B"%string]).
  { apply NoDup_cons. split; [|apply NoDup_singleton].
    intros H. apply list_elem_of_singleton in H. discriminate. }
  split; [exact Hnd|].
  destruct (clickCard_toggles 3 "A" ["A"%string; "B"%string] Hnd)
    as (Hin & _).
  destruct (clickCard_toggles 3 "C" ["A"%string; "B"%string] Hnd)
    as (_ & Hadd & _).
  split.
  - apply Hin. left.
  - apply Hadd; [|simpl; lia].
    intros H. apply elem_of_cons in H as [H|H]; [discriminate|].
    apply list_elem_of_singleton in H. discriminate.
Defined.

Lemma filter_unnamed_id (pn : string) (l : list Stored.t) :
  pn ∉ map Stored.name l →
  List.filter (fun p => negb (String.eqb (Stored.name p) pn)) l = l.
Proof.
  induction l as [|p l IH]; [done|]. simpl. intros Hno.
  apply not_elem_of_cons in Hno as [Hne Hno].
  destruct (String.eqb_spec (Stored.name p) pn) as [Heq|_]; [done|]. simpl.
  by rewrite IH.
Qed.

(** X19.  When the form was given the names stored for the season and
    normalizing a name twice is the same as normalizing it once, a body
    sent by the form and accepted by the worker is stored under the name
    the form checked, after all earlier submissions: it replaces none. *)
Theorem form_submission_is_appended
    normalize st seasonId picksPerPlayer alternates nameInput selected body
    now submittedAt pn st' :
  (∀ x, normalize (normalize x) = normalize x) →
  submitForm normalize (map Stored.name (storedPicks st seasonId)) seasonId
             picksPerPlayer alternates nameInput selected = inr body →
  postPicks normalize now submittedAt (Some body) st
  = (ReplySubmitted pn, st') →
  pn = normalize nameInput ∧
  storedPicks st' seasonId
  = storedPicks st seasonId
    ++ [Stored.mk pn (default [] (Body.picks body))
                  (orEmptyArray (Body.alternates body)) submittedAt].
Proof.
  intros Hidem Hform Hpost. unfold submitForm in Hform. cbv zeta in Hform.
  destruct (String.eqb (normalize nameInput) ""); [done|].
  case_bool_decide as Hnew; [done|].
  destruct (_ <? _); [done|]. injection Hform as <-.
  apply postPicks_accepted_inv in Hpost
    as (b & season & name & picks & [= <-] & [= <-] & [= <-] & [= <-] & _ & _
        & _ & Hpn & ->).
  rewrite Hidem in Hpn. subst pn. split; [done|].
  rewrite storedPicks_insert. simpl. by rewrite filter_unnamed_id.
Qed.

Lemma form_submission_is_appended_witness :
  (∀ x, keepName (keepName x) = keepName x) ∧
  storedPicks
    (postPicks keepName 10 7
       (Some (Body.mk (Some "s50"%string) (Some "cat"%string)
                      (Some ["B"%string; "C"%string])
                      (Some (AltsArray ["A"%string]))))
       demoStore).2 "s50"
  = storedPicks demoStore "s50"
    ++ [Stored.mk "cat" ["B"%string; "C"%string] (AltsArray ["A"%string]) 7].
Proof.
  assert (Hidem : ∀ x, keepName (keepName x) = keepName x) by reflexivity.
  split; [exact Hidem|].
  exact (proj2 (form_submission_is_appended keepName demoStore "s50" 2 1
                  "cat" ["B"%string; "C"%string; "A"%string] _ 10 7 "cat" _
                  Hidem eq_refl eq_refl)).
Defined.

(** * More on the engine *)





(** The swap looks at pick points only: here the only pick is the winner
    (5 points, and 5 of winner bonus while he is active) and the alternate
    has 7 points; the swap is made and the total is 7. *)
Example swap_can_cost_the_winner_bonus :
  map (fun s => (map Pick.swappedOut (Standing.picks s),
                 Standing.winnerBonus s, Standing.total s))
      (computeStandings
         (Season.mk 5 (<["immunityWin"%string := 2]>
                       (<["winnerBonus"%string := 5]> ∅)))
         [cIda; cXena; cYul; cZoe; cWes] [playerWesIda])
  = [([true], 0, 7)].
Proof. vm_compute. reflexivity. Qed.

Lemma find_snoc {A} (f : A → bool) (l : list A) x :
  List.find f (l ++ [x])
  = match List.find f l with
    | Some y => Some y
    | None => if f x then Some x else None
    end.
Proof. induction l as [|y l IH]; simpl; [done|]. by destruct (f y). Qed.

Lemma contestantMap_fold_last contestants (m : gmap string Contestant.t) nm :
  fold_left (fun m c => <[Contestant.name c := c]> m) contestants m !! nm
  = match List.find (fun c => String.eqb (Contestant.name c) nm)
                    (rev contestants) with
    | Some c => Some c
    | None => m !! nm
    end.
Proof.
  revert m. induction contestants as [|c cs IH]; intros m; [done|].
  cbn [fold_left]. rewrite IH. simpl rev.
  rewrite find_snoc. destruct (List.find _ (rev cs)); [done|].
  destruct (String.eqb_spec (Contestant.name c) nm) as [<-|Hne].
  - by rewrite lookup_insert_eq.
  - by rewrite lookup_insert_ne.
Qed.

(** X21.  A name resolves to the last contestant of the roster that has
    it, and to nothing when no contestant has it: when the roster repeats
    a name, the engine scores the picks of that name by the later entry. *)
Theorem contestantMap_last_wins contestants nm :
  contestantMap contestants !! nm
  = List.find (fun c => String.eqb (Contestant.name c) nm) (rev contestants).
Proof.
  unfold contestantMap. rewrite contestantMap_fold_last, lookup_empty.
  by destruct (List.find _ _).
Qed.

Lemma handle_arrayStore normalize secret req st :
  submitsArray req → arrayStore st →
  arrayStore (handle normalize secret req st).2.
Proof.
  intros Hreq Harr.
  assert (Hstored : ∀ season, Forall arrayAlternates (storedPicks st season)).
  { intros season. unfold storedPicks.
    destruct (Store.picks st !! season) as [l|] eqn:Hl; [by eapply Harr|].
    constructor. }
  assert (Hfilter : ∀ (f : Stored.t → bool) l,
             Forall arrayAlternates l →
             Forall arrayAlternates (List.filter f l)).
  { intros f l Hl. induction Hl as [|x l Hx _ IH]; simpl; [constructor|].
    destruct (f x); [by constructor|done]. }
  destruct req as [now submittedAt body|auth body|auth body]; simpl.
  - unfold postPicks. destruct body as [b|]; [|done].
    destruct (Body.season b) as [season|], (Body.name b) as [name|],
      (Body.picks b) as [picks|]; try done.
    destruct (_ || _); [done|].
    destruct (checkConfig _ _ _ _) as [r|]; [done|].
    intros season' l. simpl.
    destruct (decide (season = season')) as [<-|Hne].
    + rewrite lookup_insert_eq. intros [= <-].
      apply Forall_app. split; [by apply Hfilter|].
      constructor; [exact Hreq|constructor].
    + rewrite lookup_insert_ne by done. apply Harr.
  - unfold deletePick. destruct (negb _); [done|].
    destruct body as [b|]; [|done].
    destruct (Body.season b) as [season|], (Body.name b) as [name|];
      try done.
    destruct (_ || _); [done|].
    intros season' l. simpl.
    destruct (decide (season = season')) as [<-|Hne].
    + rewrite lookup_insert_eq. intros [= <-]. by apply Hfilter.
    + rewrite lookup_insert_ne by done. apply Harr.
  - unfold adminConfig. destruct (negb _); [done|].
    destruct body as [b|]; [|done].
    by destruct (falsyStr _).
Qed.

Lemma serve_keeps_arrayStore normalize secret reqs st :
  Forall submitsArray reqs → arrayStore st →
  arrayStore (serve normalize secret reqs st).
Proof.
  unfold serve. intros Hreqs. revert st.
  induction Hreqs as [|req reqs Hreq _ IH]; intros st Hst; [done|].
  simpl. by apply IH, handle_arrayStore.
Qed.

Lemma mapM_toPlayer_arrays stored :
  Forall arrayAlternates stored →
  ∃ players, mapM toPlayer stored = Some players ∧
             map Player.name players = map Stored.name stored.
Proof.
  induction 1 as [|r l [names Hr] _ (players & Hplayers & Hnames)].
  - by exists [].
  - exists (Player.mk (Stored.name r) (Stored.picks r) (Some names)
            :: players).
    split; [|simpl; by rewrite Hnames].
    cbn [mapM]. rewrite Hplayers. unfold toPlayer. by rewrite Hr.
Qed.

(** X22.  When every submission served had an array for [alternates], or
    none, [computeStandings] does not throw on what the worker has stored
    for a season, after any requests served from the empty store, and its
    standings name every stored player once: one standing per stored
    submission, under distinct names. *)
Theorem standings_of_served_store
    normalize secret reqs storeSeason season contestants :
  Forall submitsArray reqs →
  let stored :=
    storedPicks (serve normalize secret reqs emptyStore) storeSeason in
  ∃ standings,
    standingsOfStored season contestants stored = Some standings ∧
    NoDup (map Standing.name standings) ∧
    map Standing.name standings ≡ₚ map Stored.name stored.
Proof.
  intros Hreqs stored.
  assert (Harr : Forall arrayAlternates stored).
  { pose proof (serve_keeps_arrayStore normalize secret reqs emptyStore
                  Hreqs) as Hstore.
    unfold stored, storedPicks.
    destruct (Store.picks _ !! storeSeason) as [l|] eqn:Hl; simpl.
    - eapply Hstore; [|done]. intros s l' Hl'. simpl in Hl'.
      by rewrite lookup_empty in Hl'.
    - constructor. }
  destruct (mapM_toPlayer_arrays stored Harr) as (players & Hplayers & Hn).
  exists (computeStandings season contestants players).
  unfold standingsOfStored. rewrite Hplayers. split; [done|].
  assert (Hnames : map Standing.name
                     (computeStandings season contestants players)
                   ≡ₚ map Stored.name stored).
  { by rewrite computeStandings_names, Hn. }
  split; [|exact Hnames]. rewrite Hnames.
  pose proof (serve_keeps_uniqueNames normalize secret reqs emptyStore
                emptyStore_uniqueNames) as Huniq.
  unfold stored, storedPicks.
  destruct (Store.picks _ !! storeSeason) as [l|] eqn:Hl; simpl.
  - by eapply Huniq.
  - constructor.
Qed.

Lemma standings_of_served_store_witness :
  Forall submitsArray [Submit 10 7 (Some demoBody);
                       Delete demoAuth (Some demoBody);
                       Submit 11 8 (Some demoBody)] ∧
  ∃ standings,
    standingsOfStored scenarioSeason scenarioRoster
      (storedPicks (serve keepName "secret"
                      [Submit 10 7 (Some demoBody);
                       Delete demoAuth (Some demoBody);
                       Submit 11 8 (Some demoBody)] emptyStore) "s50")
    = Some standings ∧
    map Standing.name standings ≡ₚ ["ann"%string].
Proof.
  assert (H : Forall submitsArray [Submit 10 7 (Some demoBody);
                                   Delete demoAuth (Some demoBody);
                                   Submit 11 8 (Some demoBody)]).
  { repeat constructor; by exists ["C"%string]. }
  split; [exact H|].
  destruct (standings_of_served_store keepName "secret" _ "s50"
              scenarioSeason scenarioRoster H)
    as (standings & Hst & _ & Hnames).
  exists standings. split; [exact Hst|exact Hnames].
Defined.

(** From the empty store a submission whose [alternates] is the number 5
    is accepted, no configuration being stored for its season, and
    [computeStandings] throws on what is stored. *)
Example number_alternates_accepted :
  (postPicks keepName 10 7 (Some numberBody) emptyStore).1
  = ReplySubmitted "dan" ∧
  standingsOfStored scenarioSeason scenarioRoster
    (storedPicks (postPicks keepName 10 7 (Some numberBody) emptyStore).2
                 "s51")
  = None.
Proof. split; reflexivity. Qed.
